(** * MEMENTO question-answering retrieval: a shallow embedding

    The development follows the two Python modules of the retriever:

    - [elasticsearch.py]: text normalisation ([preprocess]), the corpus
      loader ([load_json]) and the document-store helpers ([delete_doc],
      [es_search]);
    - [retrieval.py]: the TF-IDF retriever ([SparseRetrieval]) and the
      retriever that delegates to the document store ([ElasticRetrieval]).

    Python values are modelled as follows.  A [str] is the list of its
    Unicode code points.  A Python exception is a constructor of [exn] and a
    call that may raise returns a [result].  Scores are rationals: the
    properties below depend on comparisons and on zero tests, not on
    rounding.  Dictionaries kept by external services (the document store,
    the file system, the vocabulary of the vectoriser) are finite maps. *)

From Stdlib Require Import ZArith QArith.
From stdpp Require Import base option list sorting strings pretty gmap.

Close Scope Q_scope.
Open Scope Z_scope.

(** ** Python values *)

(** A Python [str]: its sequence of code points. *)
Definition str := list Z.

(** Code points of an ASCII literal. *)
Fixpoint u (s : string) : str :=
  match s with
  | EmptyString => []
  | String a s' => Z.of_N (Ascii.N_of_ascii a) :: u s'
  end.

Inductive exn :=
  | AssertionError
  | IndexError
  | AttributeError
  | ValueError
  | NotFoundError
  | NotFittedError
  | OSError.

Inductive result (A : Type) :=
  | Ok (a : A)
  | Raise (e : exn).
Arguments Ok {A} a.
Arguments Raise {A} e.

Global Instance result_ret : MRet result := λ A a, Ok a.

Global Instance result_bind : MBind result := λ A B f r,
  match r with
  | Ok a => f a
  | Raise e => Raise e
  end.

(** [l[i]] for a non-negative [i]. *)
Definition py_getitem {A} (l : list A) (i : nat) : result A :=
  match l !! i with
  | Some x => Ok x
  | None => Raise IndexError
  end.

(** A loop or comprehension that collects one value per element; the first
    exception aborts it. *)
Fixpoint py_collect {X A} (f : X → result A) (xs : list X) : result (list A) :=
  match xs with
  | [] => Ok []
  | x :: xs' =>
      y ← f x;
      ys ← py_collect f xs';
      Ok (y :: ys)
  end.

(** [len(l)]. *)
Definition len {A} (l : list A) : Z := Z.of_nat (length l).

(** [range(n)]: empty when [n] is not positive. *)
Definition py_range (n : Z) : list nat := seq 0 (Z.to_nat n).

(** [enumerate(l)]. *)
Definition enumerate {A} (l : list A) : list (nat * A) := imap pair l.

(** The slice [l[:k]]: a negative [k] counts from the end. *)
Definition py_slice_to {A} (l : list A) (k : Z) : list A :=
  if 0 <=? k then take (Z.to_nat k) l
  else take (length l - Z.to_nat (- k)) l.

(** [list(dict.fromkeys(l))]: a dictionary keeps its keys in insertion order,
    and inserting a key that is already present leaves its place unchanged. *)
Definition dict_fromkeys `{EqDecision A} (l : list A) : list A :=
  foldl (λ keys x, if decide (x ∈ keys) then keys else keys ++ [x]) [] l.

(** ** elasticsearch.py: text normalisation *)

Definition in_range (lo hi c : Z) : bool := (lo <=? c) && (c <=? hi).

(** Whitespace as [\s] and [str.strip] see it on [str] values. *)
Definition is_space (c : Z) : bool :=
  in_range 0x09 0x0D c || in_range 0x1C 0x20 c
  || (c =? 0x85) || (c =? 0xA0) || (c =? 0x1680)
  || in_range 0x2000 0x200A c
  || (c =? 0x2028) || (c =? 0x2029) || (c =? 0x202F) || (c =? 0x205F)
  || (c =? 0x3000).

(** The characters of the class in the fourth substitution.  The pattern is
    written as two adjacent literals, an [r"..."] one ending after the curly
    double quotes and a plain one starting at the colon, so the ASCII double
    quote is not a member of the class. *)
Definition allowed (c : Z) : bool :=
  in_range 0x41 0x5A c || in_range 0x61 0x7A c || in_range 0x30 0x39 c
  || in_range 0xAC00 0xD7A3 c
  || (c =? 0x2E) || (c =? 0x3F) || (c =? 0x21) || (c =? 0x2C)
  || (c =? 0x28) || (c =? 0x29) || (c =? 0x7E)
  || (c =? 0x2018) || (c =? 0x2019) || (c =? 0x201C) || (c =? 0x201D)
  || (c =? 0x3A) || (c =? 0x25) || (c =? 0x26)
  || (c =? 0x300A) || (c =? 0x300B) || (c =? 0x3008) || (c =? 0x3009)
  || (c =? 0x27) || (c =? 0x321C) || (c =? 0xB7)
  || (c =? 0x2D) || (c =? 0x2B)
  || is_space c
  || in_range 0x4E00 0x9FA5 c.

Definition SPACE : Z := 0x20.

Arguments is_space : simpl never.
Arguments allowed : simpl never.

(** [re.sub(c, " ", text)] for a one-character pattern. *)
Definition sub_char (c : Z) (text : str) : str :=
  (λ x, if x =? c then SPACE else x) <$> text.

(** [re.sub(r"\\n", " ", text)]: a backslash followed by the letter n. *)
Fixpoint sub_backslash_n (text : str) : str :=
  match text with
  | [] => []
  | c :: rest =>
      match rest with
      | d :: rest' =>
          if (c =? 0x5C) && (d =? 0x6E) then SPACE :: sub_backslash_n rest'
          else c :: sub_backslash_n rest
      | [] => [c]
      end
  end.

(** [re.sub(r"[^...]", "", text)]. *)
Definition sub_not_allowed (text : str) : str := List.filter allowed text.

(** [re.sub(r"\s+", " ", text)]; [in_run] tells that the previous character
    belongs to a run of whitespace that was already replaced. *)
Fixpoint sub_spaces (in_run : bool) (text : str) : str :=
  match text with
  | [] => []
  | c :: rest =>
      if is_space c then
        if in_run then sub_spaces true rest else SPACE :: sub_spaces true rest
      else c :: sub_spaces false rest
  end.

Fixpoint lstrip (text : str) : str :=
  match text with
  | [] => []
  | c :: rest => if is_space c then lstrip rest else text
  end.

Fixpoint rstrip (text : str) : str :=
  match text with
  | [] => []
  | c :: rest =>
      match rstrip rest with
      | [] => if is_space c then [] else [c]
      | kept => c :: kept
      end
  end.

Definition strip (text : str) : str := rstrip (lstrip text).

Definition preprocess (text : str) : str :=
  let text := sub_char 0x0A text in
  let text := sub_backslash_n text in
  let text := sub_char 0x23 text in
  let text := sub_not_allowed text in
  strip (sub_spaces false text).

(** Shape of a text in which every run of whitespace is a single space;
    [in_run] tells that the previous character was such a space. *)
Fixpoint squeezed (in_run : bool) (text : str) : Prop :=
  match text with
  | [] => True
  | c :: rest =>
      if is_space c then in_run = false ∧ c = SPACE ∧ squeezed true rest
      else squeezed false rest
  end.

(** The normal forms: texts over the allowed characters in which whitespace
    occurs only as single inner spaces. *)
Definition normal (text : str) : Prop :=
  Forall (λ c, allowed c = true) text ∧ squeezed false text ∧ strip text = text.

(** ** elasticsearch.py: the corpus loader *)

(** The parsed collection file: its entries in file order, each with its key
    and its ["text"] field. *)
Definition wiki := list (str * str).

Record es_body := { document_text : str }.

Definition load_json (w : wiki) : list es_body :=
  let texts := dict_fromkeys (snd <$> w) in
  let texts := preprocess <$> texts in
  (λ t, {| document_text := t |}) <$> texts.

(** What the specification asks of the loader: one entry per distinct
    normalised text, in order of first appearance. *)
Definition load_json_spec (w : wiki) : list es_body :=
  (λ t, {| document_text := t |}) <$> dict_fromkeys (preprocess <$> (snd <$> w)).

(** The textbook form of first-occurrence deduplication. *)
Fixpoint nub `{EqDecision A} (l : list A) : list A :=
  match l with
  | [] => []
  | x :: l' => x :: filter (λ y, y ≠ x) (nub l')
  end.

Definition two_spellings : wiki :=
  [(u "0", u "a b"); (u "1", u "a  b")].

(** ** elasticsearch.py: the document store *)

(** The store keeps, for every index, the bodies of its documents by id. *)
Abbreviation es_store := (gmap str (gmap str es_body)).

(** What the helpers print. *)
Inductive event :=
  | Deleting (doc_id index_name : str)
  | DoesNotExist (doc_id index_name : str).

(** [es.get(index=..., id=...)["_source"]]: a missing index or document is a
    [NotFoundError]. *)
Definition es_get (es : es_store) (index_name doc_id : str) : result es_body :=
  match (es !! index_name) ≫= (.!! doc_id) with
  | Some body => Ok body
  | None => Raise NotFoundError
  end.

Definition es_exists (es : es_store) (index_name doc_id : str) : bool :=
  bool_decide (is_Some ((es !! index_name) ≫= (.!! doc_id))).

Definition es_delete (es : es_store) (index_name doc_id : str) : result es_store :=
  if es_exists es index_name doc_id
  then Ok (alter (delete doc_id) index_name es)
  else Raise NotFoundError.

(** [delete_doc] returns the store it leaves behind, what it printed, and its
    value or the exception it raised. *)
Definition delete_doc (es : es_store) (index_name doc_id : str)
  : es_store * list event * result str :=
  match es_get es index_name doc_id with
  | Raise e => (es, [], Raise e)
  | Ok deleted_doc =>
      if es_exists es index_name doc_id then
        match es_delete es index_name doc_id with
        | Raise e => (es, [], Raise e)
        | Ok es' =>
            (es', [Deleting doc_id index_name], Ok (document_text deleted_doc))
        end
      else
        (es, [DoesNotExist doc_id index_name], Ok (document_text deleted_doc))
  end.

(** ** retrieval.py: ElasticRetrieval *)

(** One element of [res["hits"]["hits"]]. *)
Record hit := { _id : str; _score : Q; _source : es_body }.

(** An element of a Python list that holds both ids and lists of ids. *)
Inductive pyval :=
  | PyStr (s : str)
  | PyList (l : list str).

Record example := {
  ex_question : str;
  ex_id : str;
  ex_context : option str;
  ex_answers : option str;
}.

(** A row of the data frame built by [retrieve_split]. *)
Record split_row := {
  row_question : str;
  row_id : pyval;
  row_context_id : pyval;
  row_context : str;
  row_original_context : option str;
  row_answers : option str;
}.

(** The outcome of one iteration of a [for] body: go on with the loop
    variables, or [return] a value from the enclosing function. *)
Inductive flow (S R : Type) :=
  | Next (s : S)
  | Return (r : R).
Arguments Next {S R} s.
Arguments Return {S R} r.

Fixpoint py_for {X S R} (body : X → S → result (flow S R)) (xs : list X) (s : S)
  : result (flow S R) :=
  match xs with
  | [] => Ok (Next s)
  | x :: xs' =>
      f ← body x s;
      match f with
      | Next s' => py_for body xs' s'
      | Return r => Ok (Return r)
      end
  end.

Module Elastic.
Section ElasticRetrieval.
(** [es_search(self.es, self.index_name, question, topk)["hits"]["hits"]]:
    which documents match and how they score is the store's business. *)
Variable es_search : str → Z → list hit.

Definition get_relevant_doc (query : str) (k : Z)
  : list Q * list str * list hit :=
  let docs := es_search query k in
  let '(doc_score, doc_index) :=
    foldl (λ '(doc_score, doc_index) h,
             (doc_score ++ [_score h], doc_index ++ [_id h]))
          ([], []) docs in
  (doc_score, doc_index, docs).

(** The inner loop appends the ids to [doc_indices], the list of the whole
    call, and [doc_index] stays empty. *)
Definition get_relevant_doc_bulk (queries : list str) (k : Z)
  : list (list Q) * list pyval * list (list hit) :=
  foldl (λ '(doc_scores, doc_indices, total_docs) query,
           let doc_index : list str := [] in
           let docs := es_search query k in
           let '(doc_score, doc_indices) :=
             foldl (λ '(doc_score, doc_indices) h,
                      (doc_score ++ [_score h], doc_indices ++ [PyStr (_id h)]))
                   ([], doc_indices) docs in
           (doc_scores ++ [doc_score],
            doc_indices ++ [PyList doc_index],
            total_docs ++ [docs]))
        ([], [], []) queries.

(** [retrieve] on a single query string.  The first loop is the one that
    prints the passages. *)
Definition retrieve (query : str) (topk : Z) : result (list Q * list str) :=
  let '(doc_scores, doc_indices, docs) := get_relevant_doc query topk in
  _ ← py_collect
        (λ i, s ← py_getitem doc_scores i;
              d ← py_getitem doc_indices i;
              h ← py_getitem docs i;
              Ok (s, d, document_text (_source h)))
        (py_range (Z.min topk (len docs)));
  ids ← py_collect (py_getitem doc_indices) (py_range topk);
  Ok (doc_scores, ids).

(** The body of the loop of [retrieve_split] over [enumerate(dataset)];
    [total] is the list it appends to.  Its last statement is [return]. *)
Definition split_body (topk : Z) (doc_indices : list pyval)
    (docs : list (list hit)) (item : nat * example) (total : list split_row)
  : result (flow (list split_row) (list split_row)) :=
  let '(idx, example) := item in
  docs_idx ← py_getitem docs idx;
  retrieved_context ←
    py_collect (λ i, h ← py_getitem docs_idx i; Ok (document_text (_source h)))
               (py_range (Z.min topk (len docs_idx)));
  rows ← py_collect
    (λ '(i, context),
       doc_id ← py_getitem doc_indices i;
       let validation :=
         bool_decide (is_Some (ex_context example)
                      ∧ is_Some (ex_answers example)) in
       Ok {| row_question := ex_question example;
             row_id := doc_id;
             row_context_id := doc_id;
             row_context := context;
             row_original_context :=
               if validation then ex_context example else None;
             row_answers := if validation then ex_answers example else None |})
    (enumerate retrieved_context);
  Ok (Return (total ++ rows)).

(** [retrieve_split]: [None] is what a Python function returns when it
    falls off its end. *)
Definition retrieve_split (dataset : list example) (topk : Z)
  : result (option (list split_row)) :=
  let '(doc_scores, doc_indices, docs) :=
    get_relevant_doc_bulk (ex_question <$> dataset) topk in
  out ← py_for (split_body topk doc_indices docs) (enumerate dataset) [];
  match out with
  | Return cqas => Ok (Some cqas)
  | Next _ => Ok None
  end.
End ElasticRetrieval.
End Elastic.

(** ** retrieval.py: SparseRetrieval *)

(** The vectoriser, an object of the scikit-learn library: the tokeniser it
    was built with and, once [fitted], its vocabulary (n-gram to column) and
    the inverse document frequency of every column. *)
Record TfidfVectorizer := {
  tokenizer : str → list str;
  fitted : bool;
  vocabulary_ : gmap str nat;
  idf_ : list Q;
}.

(** The objects held by the attributes of the retriever and by the pickle
    files.  A matrix is the list of its rows. *)
Inductive pyobj :=
  | PyNone
  | PyMatrix (m : list (list Q))
  | PyVectorizer (v : TfidfVectorizer).

Record SparseRetrieval := {
  data_path : str;
  contexts : list str;
  ids : list nat;
  tfidfv : pyobj;
  p_embedding : pyobj;
}.

(** The file system: the pickled object of every regular file. *)
Abbreviation file_system := (gmap str pyobj).

(** [os.path.join(a, b)]. *)
Definition os_path_join (a b : str) : str :=
  if bool_decide (head b = Some 0x2F) then b
  else if bool_decide (a = [] ∨ last a = Some 0x2F) then a ++ b
  else a ++ 0x2F :: b.

(** [np.sum]. *)
Definition np_sum (xs : list Q) : Q := foldr Qplus 0%Q xs.

Definition dot (a b : list Q) : Q := np_sum (zip_with Qmult a b).

(** [a * b.T] for a matrix [a] with [ncols] columns: the shapes must agree. *)
Definition matmul_T (ncols : nat) (a b : list (list Q)) : result (list (list Q)) :=
  if forallb (λ row, length row =? ncols)%nat b
  then Ok ((λ q, dot q <$> b) <$> a)
  else Raise ValueError.

(** A NumPy array of dimension zero or one. *)
Inductive ndarray :=
  | Nd0 (x : Q)
  | Nd1 (xs : list Q).

(** [squeeze] of an array of shape [(1, n)], given by its row: every axis of
    length one goes, so one element leaves no axis at all. *)
Definition squeeze (row : list Q) : ndarray :=
  match row with
  | [x] => Nd0 x
  | _ => Nd1 row
  end.

(** Bigrams are joined by a space. *)
Fixpoint bigrams (tokens : list str) : list str :=
  match tokens with
  | [] => []
  | a :: rest =>
      match rest with
      | [] => []
      | b :: _ => (a ++ SPACE :: b) :: bigrams rest
      end
  end.

Module Sparse.
Section SparseRetrieval.
(** Library routines that are not redefined here: [str.lower], the
    Euclidean norm that scales a row, the fit of a vectoriser on a corpus,
    which raises when the corpus gives no vocabulary, and [np.argsort] on a
    one-dimensional array.  [unwritable] tells at which paths
    [open(path, "wb")] raises. *)
Variable str_lower : str → str.
Variable l2_norm : list Q → Q.
Variable fit_transform :
  TfidfVectorizer → list str → result (TfidfVectorizer * list (list Q)).
Variable unwritable : str → bool.
Variable argsort : list Q → list nat.

Definition init (tokenize_fn : str → list str)
    (data_path : str) (w : wiki) : SparseRetrieval :=
  let contexts := dict_fromkeys (snd <$> w) in
  {| data_path := data_path;
     contexts := contexts;
     ids := seq 0 (length contexts);
     tfidfv := PyVectorizer {| tokenizer := tokenize_fn; fitted := false;
                               vocabulary_ := ∅; idf_ := [] |};
     p_embedding := PyNone |}.

Definition with_embedding (self : SparseRetrieval) (emb vec : pyobj)
  : SparseRetrieval :=
  {| data_path := data_path self;
     contexts := contexts self;
     ids := ids self;
     tfidfv := vec;
     p_embedding := emb |}.

Definition emd_path (self : SparseRetrieval) : str :=
  os_path_join (data_path self) (u "sparse_embedding.bin").

Definition tfidfv_path (self : SparseRetrieval) : str :=
  os_path_join (data_path self) (u "tfidv.bin").

(** The retriever and the files are given back with the outcome: an
    exception leaves them as they were when it was raised.  The fit changes
    the vectoriser in place, so a write that fails finds the retriever
    already fitted. *)
Definition get_sparse_embedding (self : SparseRetrieval) (fs : file_system)
  : SparseRetrieval * file_system * result unit :=
  match fs !! emd_path self, fs !! tfidfv_path self with
  | Some emb, Some vec => (with_embedding self emb vec, fs, Ok ())
  | _, _ =>
      match tfidfv self with
      | PyVectorizer v =>
          match fit_transform v (contexts self) with
          | Raise e => (self, fs, Raise e)
          | Ok (v', emb) =>
              let self := with_embedding self (PyMatrix emb) (PyVectorizer v') in
              if unwritable (emd_path self) then (self, fs, Raise OSError) else
              let fs := <[emd_path self := PyMatrix emb]> fs in
              if unwritable (tfidfv_path self) then (self, fs, Raise OSError) else
              let fs := <[tfidfv_path self := PyVectorizer v']> fs in
              (self, fs, Ok ())
          end
      | _ => (self, fs, Raise AttributeError)
      end
  end.

(** The features of a text: its tokens, then its bigrams. *)
Definition analyze (v : TfidfVectorizer) (doc : str) : list str :=
  let tokens := tokenizer v (str_lower doc) in
  tokens ++ bigrams tokens.

(** Features outside the vocabulary are not counted. *)
Definition term_count (v : TfidfVectorizer) (features : list str) (j : nat) : Z :=
  len (filter (λ f, vocabulary_ v !! f = Some j) features).

Definition tf_idf (v : TfidfVectorizer) (doc : str) : list Q :=
  imap (λ j idf, (inject_Z (term_count v (analyze v doc) j) * idf)%Q) (idf_ v).

(** A row of norm zero is left as it is. *)
Definition normalize (row : list Q) : list Q :=
  let n := l2_norm row in
  if Qeq_bool n 0 then row else (λ x, (x / n)%Q) <$> row.

(** The check for a fit comes first; a batch without any document is then
    refused. *)
Definition transform (v : TfidfVectorizer) (docs : list str)
  : result (list (list Q)) :=
  if fitted v then
    match docs with
    | [] => Raise ValueError
    | _ :: _ => Ok ((λ doc, normalize (tf_idf v doc)) <$> docs)
    end
  else Raise NotFittedError.

(** [np.argsort] flattens an array without axes to one element. *)
Definition np_argsort (a : ndarray) : list nat :=
  match a with
  | Nd0 x => argsort [x]
  | Nd1 xs => argsort xs
  end.

(** [a[indices]]: an array without axes cannot be indexed. *)
Definition np_take (a : ndarray) (indices : list nat) : result (list Q) :=
  match a with
  | Nd0 _ => Raise IndexError
  | Nd1 xs => py_collect (py_getitem xs) indices
  end.

(** The three lines shared by the single and the bulk search: sort the
    indices by descending score, read the scores in that order, cut both
    lists at [k]. *)
Definition rank (scores : ndarray) (k : Z) : result (list Q * list nat) :=
  let sorted_result := reverse (np_argsort scores) in
  doc_score ← np_take scores sorted_result;
  Ok (py_slice_to doc_score k, py_slice_to sorted_result k).

(** [transform([query])] and the product have one row each and are given
    by that row; the scores are ranked after [squeeze]. *)
Definition get_relevant_doc (self : SparseRetrieval) (query : str) (k : Z)
  : result (list Q * list nat) :=
  match tfidfv self with
  | PyVectorizer v =>
      query_vecs ← transform v [query];
      let query_vec := concat query_vecs in
      if Qeq_bool (np_sum query_vec) 0 then Raise AssertionError else
      match p_embedding self with
      | PyMatrix emb =>
          results ← matmul_T (length (idf_ v)) [query_vec] emb;
          rank (squeeze (concat results)) k
      | _ => Raise AttributeError
      end
  | _ => Raise AttributeError
  end.

(** The loop ranks every row [result[i, :]] of the product and fills
    [doc_scores] and [doc_indices] in step. *)
Definition get_relevant_doc_bulk (self : SparseRetrieval)
    (queries : list str) (k : Z) : result (list (list Q) * list (list nat)) :=
  match tfidfv self with
  | PyVectorizer v =>
      query_vec ← transform v queries;
      if Qeq_bool (np_sum (concat query_vec)) 0 then Raise AssertionError else
      match p_embedding self with
      | PyMatrix emb =>
          rows ← matmul_T (length (idf_ v)) query_vec emb;
          ranked ← py_collect (λ row, rank (Nd1 row) k) rows;
          Ok (fst <$> (ranked : list (list Q * list nat)), snd <$> ranked)
      | _ => Raise AttributeError
      end
  | _ => Raise AttributeError
  end.

(** The assertion of the two searches holds for the query. *)
Definition accepts (v : TfidfVectorizer) (query : str) : bool :=
  negb (Qeq_bool (np_sum (normalize (tf_idf v query))) 0).

(** The scores of all documents for a query that the vectoriser accepts,
    in corpus order. *)
Definition similarities (v : TfidfVectorizer) (emb : list (list Q)) (query : str)
  : list Q :=
  dot (normalize (tf_idf v query)) <$> emb.

(** The number of documents whose score for the query is not zero. *)
Definition nonzero_similarity_docs (self : SparseRetrieval) (query : str) : Z :=
  match tfidfv self, p_embedding self with
  | PyVectorizer v, PyMatrix emb =>
      len (List.filter (λ x, negb (Qeq_bool x 0)) (similarities v emb query))
  | _, _ => 0
  end.
End SparseRetrieval.
End Sparse.

(** What is asked of [np.argsort]: the indices of the array, ordered by
    ascending value.  The order among equal values is left open. *)
Definition argsort_spec (argsort : list Q → list nat) : Prop :=
  ∀ xs, argsort xs ≡ₚ seq 0 (length xs)
        ∧ Sorted Qle ((λ i, nth i xs 0%Q) <$> argsort xs).

(** What [rank] gives for a one-dimensional array [xs]: the first [k]
    indices in the reversed order of [argsort], and the scores found there. *)
Definition ranked (argsort : list Q → list nat) (xs : list Q) (k : Z)
  : list Q * list nat :=
  ((λ i, nth i xs 0%Q) <$> py_slice_to (reverse (argsort xs)) k,
   py_slice_to (reverse (argsort xs)) k).

(** The retriever is ready to rank: it holds a fitted vectoriser and a
    document matrix with one column per vocabulary entry. *)
Definition ready (self : SparseRetrieval) (v : TfidfVectorizer)
    (emb : list (list Q)) : Prop :=
  tfidfv self = PyVectorizer v
  ∧ fitted v = true
  ∧ p_embedding self = PyMatrix emb
  ∧ Forall (λ row, length row = length (idf_ v)) emb.

(** The rows that the hits of one query give for one example. *)
Definition rows_of_hits (example : example) (hits : list hit) : list split_row :=
  let validation :=
    bool_decide (is_Some (ex_context example) ∧ is_Some (ex_answers example)) in
  (λ h, {| row_question := ex_question example;
           row_id := PyStr (_id h);
           row_context_id := PyStr (_id h);
           row_context := document_text (_source h);
           row_original_context :=
             if validation then ex_context example else None;
           row_answers := if validation then ex_answers example else None |})
  <$> hits.

(** A store with two documents about lunch, one about dinner and none about
    breakfast. *)
Definition mk_hit (doc_id : string) (score : Q) (text : string) : hit :=
  {| _id := u doc_id; _score := score;
     _source := {| document_text := u text |} |}.

Definition meal_search (query : str) (k : Z) : list hit :=
  take (Z.to_nat k)
    (if bool_decide (query = u "lunch") then
       [mk_hit "3" (5 # 2) "lunch at noon"; mk_hit "7" (5 # 4) "late lunch"]
     else if bool_decide (query = u "dinner") then
       [mk_hit "5" (3 # 1) "dinner at eight"]
     else []).

Definition meal_store : es_store :=
  {[ u "meals" := {[ u "3" := {| document_text := u "lunch at noon" |} ]} ]}.

(** The list that the bulk search is asked to return as its second
    component: for every query, in order, the list of the ids of its hits. *)
Definition aligned_doc_indices (es_search : str → Z → list hit)
    (queries : list str) (k : Z) : list pyval :=
  (λ query, PyList (_id <$> es_search query k)) <$> queries.

(** The list that it returns: the ids of all hits, with an empty list after
    the ids of each query. *)
Definition flat_doc_indices (es_search : str → Z → list hit)
    (queries : list str) (k : Z) : list pyval :=
  queries ≫= (λ query, (PyStr ∘ _id <$> es_search query k) ++ [PyList []]).

(** *** A small corpus

    Concrete stand-ins for the library routines: lower-casing of ASCII
    letters, splitting on whitespace, a Euclidean norm to six decimals, a
    merge sort of the indices, and a fit that gives every feature of the
    corpus a column and the weight one. *)
Definition ascii_lower (s : str) : str :=
  (λ c, if in_range 0x41 0x5A c then c + 32 else c) <$> s.

Fixpoint split_from (word text : str) : list str :=
  match text with
  | [] => match word with [] => [] | _ => [word] end
  | c :: rest =>
      if is_space c then
        match word with
        | [] => split_from [] rest
        | _ => word :: split_from [] rest
        end
      else split_from (word ++ [c]) rest
  end.

Definition split_words (text : str) : list str := split_from [] text.

Definition l2_fixed (row : list Q) : Q :=
  let squares := np_sum ((λ x, x * x)%Q <$> row) in
  Z.sqrt (Qnum squares * 10 ^ 12 / Zpos (Qden squares)) # 1000000.

Definition score_le (xs : list Q) (i j : nat) : Prop :=
  Qle_bool (nth i xs 0%Q) (nth j xs 0%Q) = true.

Global Instance score_le_dec xs : RelDecision (score_le xs) :=
  λ i j, decide (Qle_bool (nth i xs 0%Q) (nth j xs 0%Q) = true).

Definition merge_argsort (xs : list Q) : list nat :=
  merge_sort (score_le xs) (seq 0 (length xs)).

Definition toy_features (v : TfidfVectorizer) (docs : list str) : list str :=
  dict_fromkeys (docs ≫= Sparse.analyze ascii_lower v).

Definition toy_fit (v : TfidfVectorizer) (docs : list str)
  : TfidfVectorizer * list (list Q) :=
  let features := toy_features v docs in
  let v' := {| tokenizer := tokenizer v;
               fitted := true;
               vocabulary_ := list_to_map (zip features (seq 0 (length features)));
               idf_ := replicate (length features) 1%Q |} in
  (v', (λ doc, Sparse.normalize l2_fixed (Sparse.tf_idf ascii_lower v' doc)) <$> docs).

(** A corpus without any feature has an empty vocabulary, and the fit
    raises. *)
Definition toy_fit_transform (v : TfidfVectorizer) (docs : list str)
  : result (TfidfVectorizer * list (list Q)) :=
  match toy_features v docs with
  | [] => Raise ValueError
  | _ :: _ => Ok (toy_fit v docs)
  end.

(** Every file can be written. *)
Definition all_writable (path : str) : bool := false.

(** The vectoriser as the constructor makes it. *)
Definition fresh_vectorizer : TfidfVectorizer :=
  {| tokenizer := split_words; fitted := false; vocabulary_ := ∅; idf_ := [] |}.

Definition fitted_model (w : wiki) : TfidfVectorizer * list (list Q) :=
  toy_fit fresh_vectorizer (dict_fromkeys (snd <$> w)).

Definition fitted_on (w : wiki) : SparseRetrieval :=
  Sparse.with_embedding (Sparse.init split_words (u "data") w)
    (PyMatrix (snd (fitted_model w))) (PyVectorizer (fst (fitted_model w))).

(** The corpus of the example scenario. *)
Definition fruit_wiki : wiki :=
  [(u "0", u "apple banana"); (u "1", u "banana cherry");
   (u "2", u "apple cherry")].

Definition fruit : SparseRetrieval := fitted_on fruit_wiki.

(** A corpus of one document. *)
Definition solo_wiki : wiki := [(u "0", u "apple banana")].

Definition solo : SparseRetrieval := fitted_on solo_wiki.

(** ** elasticsearch.py: the other loaders *)

(** A folder: its entries in the order in which [os.listdir] gives them, each
    with what reading it as text returns. *)
Definition folder := list (str * str).

(** [s.endswith(suffix)]. *)
Definition endswith (s suffix : str) : bool :=
  bool_decide (suffix `suffix_of` s).

Definition load_txt (dir : folder) : list es_body :=
  let file_list_txt := List.filter (λ file, endswith (fst file) (u ".txt")) dir in
  let texts := snd <$> file_list_txt in
  let texts := preprocess <$> texts in
  (λ t, {| document_text := t |}) <$> texts.

(** An uploaded file: its name and its content decoded as UTF-8. *)
Record uploaded := { file_name : str; file_text : str }.

(** [s.split(".")[0]]: what precedes the first dot. *)
Fixpoint before_dot (s : str) : str :=
  match s with
  | [] => []
  | c :: rest => if c =? 0x2E then [] else c :: before_dot rest
  end.

Definition read_uploadedfile (files : list uploaded) : list es_body * list str :=
  let '(texts, titles) :=
    foldl (λ '(texts, titles) file,
             let title := before_dot (file_name file) in
             let text := file_text file in
             (texts ++ [title ++ u " " ++ preprocess text], titles ++ [title]))
          ([], []) files in
  ((λ t, {| document_text := t |}) <$> texts, titles).

(** ** elasticsearch.py: index management and bulk loading *)

(** The exceptions of these helpers, some of which [exn] does not list:
    a missing settings file, a settings file that is not JSON, the refusal
    of the store to create an index that exists, and the use of a variable
    that no branch has bound. *)
Inductive es_exn :=
  | Builtin (e : exn)
  | FileNotFoundError
  | JSONDecodeError
  | RequestError
  | UnboundLocalError.

Inductive outcome (A : Type) :=
  | Returns (a : A)
  | Raises (e : es_exn).
Arguments Returns {A} a.
Arguments Raises {A} e.

(** What these helpers print. *)
Inductive index_event :=
  | IndexCreated
  | DeletingIndex (index_name : str)
  | IndexDoesNotExist (index_name : str)
  | UnableToLoad (i : nat)
  | Loaded (n_records : Z) (index_name : str)
  | InsertDone
  | FirstUse (doc_num : Z)
  | SecondUse (doc_num : Z).

(** The settings file as [open] and [json.load] find it: there is no file
    at [setting_path], or the file has a content that is not JSON, or it
    has a content that [json.load] parses. *)
Inductive setting_file :=
  | NoFile
  | NotJson (content : str)
  | Json (content : str).

Definition create_index (es : es_store) (index_name : str) (setting : setting_file)
  : es_store * list index_event * outcome unit :=
  match setting with
  | NoFile => (es, [], Raises FileNotFoundError)
  | NotJson _ => (es, [], Raises JSONDecodeError)
  | Json _ =>
      if bool_decide (is_Some (es !! index_name))
      then (es, [], Raises RequestError)
      else (<[index_name := ∅]> es, [IndexCreated], Returns ())
  end.

Definition delete_index (es : es_store) (index_name : str)
  : es_store * list index_event :=
  if bool_decide (is_Some (es !! index_name))
  then (delete index_name es, [DeletingIndex index_name])
  else (es, [IndexDoesNotExist index_name]).

Definition initial_index (es : es_store) (index_name : str) (setting : setting_file)
  : es_store * list index_event * outcome unit :=
  let '(es, log) := delete_index es index_name in
  let '(es, log', out) := create_index es index_name setting in
  (es, log ++ log', out).

(** [es.count(index=...)["count"]]. *)
Definition count_doc (es : es_store) (index_name : str) : result Z :=
  match es !! index_name with
  | Some docs => Ok (Z.of_nat (size docs))
  | None => Raise NotFoundError
  end.

Definition check_data (es : es_store) (index_name doc_id : str) : result str :=
  doc ← es_get es index_name doc_id;
  Ok (document_text doc).

(** The id under which the store files a document whose id is given as an
    [int]: its decimal digits. *)
Definition int_id (n : Z) : str := u (pretty n).

(** The store after [es.index] has been accepted: the index is created if
    need be and the document replaces the one of the same id. *)
Definition put_doc (es : es_store) (index_name doc_id : str) (body : es_body)
  : es_store :=
  <[index_name := <[doc_id := body]> (default ∅ (es !! index_name))]> es.

Section Loading.
(** Which calls of [es.index] the store answers with an exception is its
    business. *)
Variable refuses : str → str → es_body → bool.

Definition es_index (es : es_store) (index_name doc_id : str) (body : es_body)
  : option es_store :=
  if refuses index_name doc_id body then None
  else Some (put_doc es index_name doc_id body).

(** One turn of the loading loops: the [try] covers the computation of the
    id and the call of the store. *)
Definition try_index (index_name : str) (doc_id : nat → result str)
    (state : es_store * list index_event) (item : nat * es_body)
  : es_store * list index_event :=
  let '(es, log) := state in
  let '(i, text) := item in
  match doc_id i with
  | Raise _ => (es, log ++ [UnableToLoad i])
  | Ok d =>
      match es_index es index_name d text with
      | Some es' => (es', log)
      | None => (es, log ++ [UnableToLoad i])
      end
  end.

(** [type] is the keyword argument of that name; [as_json] and [as_txt] are
    what [dataset_path] holds when it is read as a collection file and when
    it is listed as a folder. *)
Definition insert_data (es : es_store) (index_name : str) (type : str)
    (as_json : wiki) (as_txt : folder) (start_id : option Z)
  : es_store * list index_event * outcome unit :=
  let corpus :=
    if bool_decide (type = u "json") then Some (load_json as_json)
    else if bool_decide (type = u "txt") then Some (load_txt as_txt)
    else None in
  match corpus with
  | None => (es, [], Raises UnboundLocalError)
  | Some corpus =>
      let doc_id i :=
        match start_id with
        | Some start => Ok (int_id (start + Z.of_nat i))
        | None => Ok (int_id (Z.of_nat i))
        end in
      let '(es, log) := foldl (try_index index_name doc_id) (es, []) (enumerate corpus) in
      match count_doc es index_name with
      | Raise e => (es, log, Raises (Builtin e))
      | Ok n_records => (es, log ++ [Loaded n_records index_name; InsertDone], Returns ())
      end
  end.

Definition insert_data_st (es : es_store) (index_name : str)
    (corpus : list es_body) (titles : list str) (start_id : option Z)
  : es_store * list index_event * outcome unit :=
  let doc_id i :=
    match start_id with
    | Some start => Ok (int_id (start + Z.of_nat i))
    | None => py_getitem titles i
    end in
  let '(es, log) := foldl (try_index index_name doc_id) (es, []) (enumerate corpus) in
  match count_doc es index_name with
  | Raise e => (es, log, Raises (Builtin e))
  | Ok n_records => (es, log ++ [Loaded n_records index_name], Returns ())
  end.

Definition user_setting (es : es_store) (index_name : str)
    (corpus : list es_body) (titles : list str) (type : str) (setting : setting_file)
  : es_store * list index_event * outcome unit :=
  if bool_decide (type = u "first") then
    let '(es, log1, out) := initial_index es index_name setting in
    match out with
    | Raises e => (es, log1, Raises e)
    | Returns _ =>
        let '(es, log2, out) := insert_data_st es index_name corpus titles None in
        match out with
        | Raises e => (es, log1 ++ log2, Raises e)
        | Returns _ =>
            match count_doc es index_name with
            | Raise e => (es, log1 ++ log2, Raises (Builtin e))
            | Ok doc_num => (es, log1 ++ log2 ++ [FirstUse doc_num], Returns ())
            end
        end
    end
  else if bool_decide (type = u "second") then
    match count_doc es index_name with
    | Raise e => (es, [], Raises (Builtin e))
    | Ok doc_num =>
        let '(es, log, out) :=
          insert_data_st es index_name corpus titles (Some doc_num) in
        match out with
        | Raises e => (es, log, Raises e)
        | Returns _ => (es, log ++ [SecondUse doc_num], Returns ())
        end
    end
  else (es, [], Returns ()).
End Loading.

(** The document of an index with a given id, if there is one. *)
Definition lookup_doc (es : es_store) (index_name doc_id : str) : option es_body :=
  (es !! index_name) ≫= (.!! doc_id).

(** The write that one turn of a loading loop makes, if the id can be
    computed and the store accepts the document. *)
Definition accepted (refuses : str → str → es_body → bool) (index_name : str)
    (doc_id : nat → result str) (item : nat * es_body) : option (str * es_body) :=
  match doc_id (fst item) with
  | Ok d => if refuses index_name d (snd item) then None else Some (d, snd item)
  | Raise _ => None
  end.

Definition put_all (index_name : str) (es : es_store)
    (writes : list (str * es_body)) : es_store :=
  foldl (λ es write, put_doc es index_name (fst write) (snd write)) es writes.

(** A store that refuses every document whose text is empty. *)
Definition refuses_empty (index_name doc_id : str) (body : es_body) : bool :=
  bool_decide (document_text body = []).

Definition accepts_all (index_name doc_id : str) (body : es_body) : bool := false.

(** ** retrieval.py: the data frames of [retrieve] *)

(** [sep.join(l)]. *)
Fixpoint py_join (sep : str) (l : list str) : str :=
  match l with
  | [] => []
  | x :: rest =>
      match rest with
      | [] => x
      | _ => x ++ sep ++ py_join sep rest
      end
  end.

(** A row of the data frame that [retrieve] builds for a dataset; [I] is the
    type of what the retriever puts into the column of the context ids. *)
Record cqa_row (I : Type) := {
  cqa_question : str;
  cqa_id : str;
  cqa_context_id : I;
  cqa_context : str;
  cqa_original_context : option str;
  cqa_answers : option str;
}.
Arguments cqa_question {I} _.
Arguments cqa_id {I} _.
Arguments cqa_context_id {I} _.
Arguments cqa_context {I} _.
Arguments cqa_original_context {I} _.
Arguments cqa_answers {I} _.

Definition cqa {I} (example : example) (context_id : I) (context : str)
  : cqa_row I :=
  let validation :=
    bool_decide (is_Some (ex_context example) ∧ is_Some (ex_answers example)) in
  {| cqa_question := ex_question example;
     cqa_id := ex_id example;
     cqa_context_id := context_id;
     cqa_context := context;
     cqa_original_context := if validation then ex_context example else None;
     cqa_answers := if validation then ex_answers example else None |}.

Module ElasticFrame.
Section Retrieve.
Variable es_search : str → Z → list hit.

(** [ElasticRetrieval.retrieve] on a dataset. *)
Definition retrieve (dataset : list example) (topk : Z)
  : result (list (cqa_row pyval)) :=
  let '(doc_scores, doc_indices, docs) :=
    Elastic.get_relevant_doc_bulk es_search (ex_question <$> dataset) topk in
  py_collect
    (λ '(idx, example),
       docs_idx ← py_getitem docs idx;
       retrieved_context ←
         py_collect (λ i, h ← py_getitem docs_idx i; Ok (document_text (_source h)))
                    (py_range (Z.min topk (len docs_idx)));
       context_id ← py_getitem doc_indices idx;
       Ok (cqa example context_id (py_join (u " ") retrieved_context)))
    (enumerate dataset).
End Retrieve.
End ElasticFrame.

Module SparseFrame.
Section Retrieve.
Variable str_lower : str → str.
Variable l2_norm : list Q → Q.
Variable argsort : list Q → list nat.

(** The assertion of the bulk search holds for the queries: it looks at
    the sum over all of them. *)
Definition batch_accepts (v : TfidfVectorizer) (queries : list str) : bool :=
  negb (Qeq_bool
          (np_sum (concat ((λ doc, Sparse.normalize l2_norm
                                     (Sparse.tf_idf str_lower v doc)) <$> queries)))
          0).

(** [SparseRetrieval.retrieve] on a query string.  The first loop is the
    one that prints scores and passages. *)
Definition retrieve (self : SparseRetrieval) (query : str) (topk : Z)
  : result (list Q * list str) :=
  match p_embedding self with
  | PyNone => Raise AssertionError
  | _ =>
      ranked ← Sparse.get_relevant_doc str_lower l2_norm argsort self query topk;
      let doc_scores := fst ranked in
      let doc_indices := snd ranked in
      _ ← py_collect
            (λ i, s ← py_getitem doc_scores i;
                  pid ← py_getitem doc_indices i;
                  text ← py_getitem (contexts self) pid;
                  Ok (s, text))
            (py_range topk);
      texts ← py_collect
            (λ i, pid ← py_getitem doc_indices i; py_getitem (contexts self) pid)
            (py_range topk);
      Ok (doc_scores, texts)
  end.

(** [SparseRetrieval.retrieve] on a dataset. *)
Definition retrieve_dataset (self : SparseRetrieval) (dataset : list example)
    (topk : Z) : result (list (cqa_row (list nat))) :=
  match p_embedding self with
  | PyNone => Raise AssertionError
  | _ =>
      ranked ← Sparse.get_relevant_doc_bulk str_lower l2_norm argsort self
                 (ex_question <$> dataset) topk;
      let doc_indices := snd ranked in
      py_collect
        (λ '(idx, example),
           context_id ← py_getitem doc_indices idx;
           passages ← py_collect (py_getitem (contexts self)) context_id;
           Ok (cqa example context_id (py_join (u " ") passages)))
        (enumerate dataset)
  end.
End Retrieve.
End SparseFrame.


(** The two files that a first run on the small corpus leaves in [data]. *)
Definition fruit_files : file_system :=
  <[Sparse.tfidfv_path fruit := tfidfv fruit]>
    (<[Sparse.emd_path fruit := p_embedding fruit]> ∅).

(** Two questions, the second one without any word of the small corpus. *)
Definition fruit_questions : list example :=
  [{| ex_question := u "apple"; ex_id := u "q1";
      ex_context := None; ex_answers := None |};
   {| ex_question := u "durian"; ex_id := u "q2";
      ex_context := None; ex_answers := None |}].

(** A collection in which one text occurs twice. *)
Definition repeated_wiki : wiki :=
  [(u "0", u "apple  pie"); (u "1", u "pear#tart"); (u "2", u "apple  pie")].

Definition two_uploads : list uploaded :=
  [{| file_name := u "minutes.2024.txt"; file_text := u "a  b" |};
   {| file_name := u "notes"; file_text := u "#" |}].

Definition minutes_corpus : list es_body :=
  [{| document_text := u "minutes a b" |}; {| document_text := u "notes" |}].

(** * Properties *)

(** ** Normalisation *)

Lemma preprocess_example :
  preprocess (u "  Hi,\nthere #1 \\n <ok> ") = u "Hi, there 1 ok".
Proof. vm_compute. reflexivity. Qed.

Lemma squeezed_sub_spaces b text : squeezed b (sub_spaces b text).
Proof.
  revert b. induction text as [|c rest IH]; intros b; simpl; [done|].
  destruct (is_space c) eqn:Hc.
  - destruct b; [apply IH|]. simpl. split_and!; [done..|apply IH].
  - simpl. rewrite Hc. apply IH.
Qed.

Lemma sub_spaces_squeezed b text : squeezed b text → sub_spaces b text = text.
Proof.
  revert b. induction text as [|c rest IH]; intros b; simpl; [done|].
  destruct (is_space c).
  - intros (-> & -> & Hrest). by rewrite (IH _ Hrest).
  - intros Hrest. by rewrite (IH _ Hrest).
Qed.

Lemma squeezed_weaken b text : squeezed b text → squeezed false text.
Proof.
  destruct text as [|c rest]; simpl; [done|].
  destruct (is_space c); [|done]. by intros (_ & -> & ?).
Qed.

Lemma squeezed_app_l b l1 l2 : squeezed b (l1 ++ l2) → squeezed b l1.
Proof.
  revert b. induction l1 as [|c rest IH]; intros b; simpl; [done|].
  destruct (is_space c); [|apply IH].
  intros (? & ? & ?). split_and!; [done..|by apply IH].
Qed.

Lemma squeezed_app_r b l1 l2 : squeezed b (l1 ++ l2) → squeezed false l2.
Proof.
  revert b. induction l1 as [|c rest IH]; intros b; simpl.
  - apply squeezed_weaken.
  - destruct (is_space c); [|apply IH]. intros (_ & _ & ?). by eapply IH.
Qed.

Lemma lstrip_suffix text : ∃ dropped, text = dropped ++ lstrip text.
Proof.
  induction text as [|c rest [d IH]]; simpl; [by exists []|].
  destruct (is_space c); [|by exists []].
  exists (c :: d). simpl. by rewrite <- IH.
Qed.

Lemma rstrip_prefix text : ∃ dropped, text = rstrip text ++ dropped.
Proof.
  induction text as [|c rest [d IH]]; simpl; [by exists []|].
  destruct (rstrip rest) as [|k kept] eqn:Hk.
  - destruct (is_space c); [by exists (c :: rest)|]. exists rest. done.
  - exists d. simpl. by rewrite IH at 1.
Qed.

Lemma rstrip_cons_keep c rest :
  is_space c = false → rstrip (c :: rest) = c :: rstrip rest.
Proof. intros Hc. simpl. rewrite Hc. by destruct (rstrip rest). Qed.

Lemma rstrip_idemp text : rstrip (rstrip text) = rstrip text.
Proof.
  induction text as [|c rest IH]; simpl; [done|].
  destruct (rstrip rest) as [|k kept] eqn:Hk.
  - destruct (is_space c) eqn:Hc; [done|]. simpl. by rewrite Hc.
  - change (rstrip (c :: k :: kept)) with
      (match rstrip (k :: kept) with
       | [] => if is_space c then [] else [c]
       | kept' => c :: kept'
       end).
    by rewrite IH.
Qed.

Lemma lstrip_head text : lstrip (lstrip text) = lstrip text.
Proof.
  induction text as [|c rest IH]; simpl; [done|].
  destruct (is_space c) eqn:Hc; [done|]. simpl. by rewrite Hc.
Qed.

Lemma lstrip_rstrip_fixed text :
  lstrip text = text → lstrip (rstrip text) = rstrip text.
Proof.
  destruct text as [|c rest]; [done|].
  intros Hfix. destruct (is_space c) eqn:Hc.
  - exfalso. simpl in Hfix. rewrite Hc in Hfix.
    destruct (lstrip_suffix rest) as [d Hd].
    apply (f_equal length) in Hfix. apply (f_equal length) in Hd.
    rewrite length_app in Hd. simpl in Hfix. lia.
  - rewrite (rstrip_cons_keep _ _ Hc). simpl. by rewrite Hc.
Qed.

Lemma strip_idemp text : strip (strip text) = strip text.
Proof.
  unfold strip.
  rewrite (lstrip_rstrip_fixed (lstrip text)) by apply lstrip_head.
  apply rstrip_idemp.
Qed.

Lemma strip_forall (P : Z → Prop) text : Forall P text → Forall P (strip text).
Proof.
  unfold strip. intros H.
  destruct (lstrip_suffix text) as [d1 H1].
  destruct (rstrip_prefix (lstrip text)) as [d2 H2].
  rewrite H1, H2 in H. rewrite !Forall_app in H. tauto.
Qed.

Lemma strip_squeezed b text : squeezed b text → squeezed false (strip text).
Proof.
  unfold strip. intros H.
  destruct (lstrip_suffix text) as [d1 H1].
  destruct (rstrip_prefix (lstrip text)) as [d2 H2].
  rewrite H1 in H. apply squeezed_app_r in H.
  rewrite H2 in H. by apply squeezed_app_l in H.
Qed.

Lemma sub_spaces_allowed b text :
  Forall (λ c, allowed c = true) text →
  Forall (λ c, allowed c = true) (sub_spaces b text).
Proof.
  revert b. induction text as [|c rest IH]; intros b H; simpl; [done|].
  apply Forall_cons in H as [Hc Hrest].
  destruct (is_space c); [destruct b|]; auto.
Qed.

Lemma preprocess_normal text : normal (preprocess text).
Proof.
  unfold preprocess, normal. split_and!.
  - apply strip_forall, sub_spaces_allowed.
    unfold sub_not_allowed. apply Forall_forall. intros c Hc.
    apply list_elem_of_In, filter_In in Hc. tauto.
  - eapply strip_squeezed, squeezed_sub_spaces.
  - apply strip_idemp.
Qed.

Lemma normal_chars text :
  Forall (λ c, allowed c = true) text → squeezed false text →
  Forall (λ c, c ≠ 0x0A ∧ c ≠ 0x5C ∧ c ≠ 0x23 ∧ allowed c = true) text.
Proof.
  intros Hall. generalize false.
  induction Hall as [|c rest Hc Hrest IH]; intros b; simpl; [done|].
  destruct (is_space c) eqn:Hs.
  - intros (_ & -> & Hsq). constructor; [|by eapply IH].
    by vm_compute.
  - intros Hsq. constructor; [|by eapply IH].
    split_and!; try done; intros ->; by vm_compute in Hs, Hc.
Qed.

Lemma sub_char_absent c text : Forall (λ x, x ≠ c) text → sub_char c text = text.
Proof.
  unfold sub_char. induction 1 as [|x rest Hx Hrest IH]; [done|].
  rewrite fmap_cons, IH. by destruct (Z.eqb_spec x c).
Qed.

Lemma sub_backslash_n_absent text :
  Forall (λ x, x ≠ 0x5C) text → sub_backslash_n text = text.
Proof.
  induction 1 as [|x rest Hx Hrest IH]; [done|].
  destruct rest as [|d rest']; [done|].
  cbn [sub_backslash_n]. cbn [sub_backslash_n] in IH. rewrite IH.
  destruct (Z.eqb_spec x 0x5C) as [->|Hne]; [congruence|]. reflexivity.
Qed.

Lemma sub_not_allowed_fixed text :
  Forall (λ c, allowed c = true) text → sub_not_allowed text = text.
Proof.
  unfold sub_not_allowed. induction 1 as [|x rest Hx Hrest IH]; [done|].
  cbn [List.filter]. by rewrite Hx, IH.
Qed.

Lemma preprocess_fixed text : normal text → preprocess text = text.
Proof.
  intros (Hall & Hsq & Hstrip). unfold preprocess.
  pose proof (normal_chars _ Hall Hsq) as Hchars.
  rewrite (sub_char_absent 0x0A text)
    by (eapply Forall_impl; [exact Hchars|intros ? (?&?&?&?); assumption]).
  rewrite (sub_backslash_n_absent text)
    by (eapply Forall_impl; [exact Hchars|intros ? (?&?&?&?); assumption]).
  rewrite (sub_char_absent 0x23 text)
    by (eapply Forall_impl; [exact Hchars|intros ? (?&?&?&?); assumption]).
  rewrite sub_not_allowed_fixed by done.
  by rewrite sub_spaces_squeezed.
Qed.

(** C9: normalising a normalised text changes nothing. *)
Theorem preprocess_idempotent (s : str) :
  preprocess (preprocess s) = preprocess s.
Proof. apply preprocess_fixed, preprocess_normal. Qed.

(** ** Corpus loader *)

Section fromkeys.
Context `{EqDecision A}.
Implicit Types l keys : list A.

Lemma fromkeys_from keys l :
  foldl (λ keys x, if decide (x ∈ keys) then keys else keys ++ [x]) keys l
  = keys ++ filter (λ y, y ∉ keys) (nub l).
Proof.
  revert keys. induction l as [|x l IH]; intros keys; simpl.
  - by rewrite app_nil_r.
  - rewrite IH. destruct (decide (x ∈ keys)) as [Hin|Hout].
    + rewrite filter_cons_False by tauto.
      rewrite list_filter_filter. f_equal.
      apply list_filter_iff. intros y. split; [|tauto].
      intros Hy. split; [done|]. by intros ->.
    + rewrite filter_cons_True by done.
      rewrite list_filter_filter, <- app_assoc. simpl. do 2 f_equal.
      apply list_filter_iff. intros y.
      rewrite elem_of_app, list_elem_of_singleton. tauto.
Qed.

Lemma dict_fromkeys_nub l : dict_fromkeys l = nub l.
Proof.
  unfold dict_fromkeys. rewrite fromkeys_from. simpl.
  induction (nub l) as [|y ys IH]; [done|].
  rewrite filter_cons_True by apply not_elem_of_nil. by f_equal.
Qed.

Lemma elem_of_nub l x : x ∈ nub l ↔ x ∈ l.
Proof.
  induction l as [|y l IH]; simpl; [done|].
  rewrite !elem_of_cons, list_elem_of_filter, IH.
  destruct (decide (x = y)); tauto.
Qed.

Lemma NoDup_nub l : NoDup (nub l).
Proof.
  induction l as [|y l IH]; simpl; constructor.
  - rewrite list_elem_of_filter. tauto.
  - by apply NoDup_filter.
Qed.
End fromkeys.

(** C6, as stated, fails: two raw texts that differ only in spacing are both
    kept, so the corpus holds the same normalised text twice. *)
Lemma load_json_keeps_equal_normalised_texts :
  ¬ NoDup (document_text <$> load_json two_spellings)
  ∧ load_json two_spellings ≠ load_json_spec two_spellings.
Proof.
  split; [|by vm_compute].
  vm_compute. intros Hnd. apply NoDup_cons in Hnd as [Hnotin _].
  apply Hnotin. left.
Qed.

(** C6, amended: the loader removes duplicates among the raw texts, keeping
    the first occurrence of each and their order, and then normalises every
    remaining text; the corpus has one entry per distinct raw text. *)
Theorem load_json_dedups_raw_texts (w : wiki) :
  let raw := nub (snd <$> w) in
  load_json w = (λ t, {| document_text := preprocess t |}) <$> raw
  ∧ NoDup raw
  ∧ (∀ t, t ∈ raw ↔ t ∈ snd <$> w).
Proof.
  simpl. split_and!.
  - unfold load_json. by rewrite dict_fromkeys_nub, <- list_fmap_compose.
  - apply NoDup_nub.
  - apply elem_of_nub.
Qed.

(** ** Loops *)

Lemma py_collect_ok {X A} (f : X → result A) (g : X → A) xs :
  (∀ x, x ∈ xs → f x = Ok (g x)) → py_collect f xs = Ok (g <$> xs).
Proof.
  induction xs as [|x xs IH]; intros Hf; simpl; [done|].
  rewrite Hf by left. simpl. rewrite IH; [done|].
  intros y Hy. apply Hf. by right.
Qed.

Lemma py_getitem_lookup {A} (l : list A) i x :
  l !! i = Some x → py_getitem l i = Ok x.
Proof. unfold py_getitem. by intros ->. Qed.

Lemma py_getitem_out {A} (l : list A) i :
  (length l ≤ i)%nat → py_getitem l i = Raise IndexError.
Proof. unfold py_getitem. intros H. by rewrite lookup_ge_None_2. Qed.

Lemma py_collect_getitem {A B} (g : A → B) (l : list A) s n :
  (s + n ≤ length l)%nat →
  py_collect (λ i, h ← py_getitem l i; Ok (g h)) (seq s n)
  = Ok (g <$> take n (drop s l)).
Proof.
  revert s. induction n as [|n IH]; intros s Hlen; simpl; [done|].
  destruct (lookup_lt_is_Some_2 l s) as [x Hx]; [lia|].
  rewrite (py_getitem_lookup _ _ _ Hx). simpl.
  rewrite IH by lia. simpl.
  rewrite (drop_S _ _ _ Hx). done.
Qed.

Lemma py_collect_getitem_short {A} (l : list A) s n :
  (s ≤ length l < s + n)%nat →
  py_collect (py_getitem l) (seq s n) = Raise IndexError.
Proof.
  revert s. induction n as [|n IH]; intros s Hlen; simpl; [lia|].
  destruct (decide (s = length l)) as [->|Hne].
  - by rewrite py_getitem_out.
  - destruct (lookup_lt_is_Some_2 l s) as [x Hx]; [lia|].
    rewrite (py_getitem_lookup _ _ _ Hx). simpl.
    by rewrite IH by lia.
Qed.

Lemma py_collect_ext {X A} (f g : X → result A) xs :
  (∀ x, f x = g x) → py_collect f xs = py_collect g xs.
Proof. intros Hfg. induction xs as [|x xs IH]; simpl; [done|]. by rewrite Hfg, IH. Qed.

Lemma py_collect_getitem_full {A} (l : list A) n :
  (n ≤ length l)%nat → py_collect (py_getitem l) (seq 0 n) = Ok (take n l).
Proof.
  intros Hn.
  pose proof (py_collect_getitem (λ x, x) l 0 n Hn) as H.
  rewrite list_fmap_id, drop_0 in H. rewrite <- H.
  apply py_collect_ext. intros i. by destruct (py_getitem l i).
Qed.

(** ** Document store *)

Lemma delete_doc_eq (es : es_store) (index_name doc_id : str) :
  delete_doc es index_name doc_id
  = match (es !! index_name) ≫= (.!! doc_id) with
    | None => (es, [], Raise NotFoundError)
    | Some body =>
        (alter (delete doc_id) index_name es,
         [Deleting doc_id index_name],
         Ok (document_text body))
    end.
Proof.
  unfold delete_doc, es_delete, es_get, es_exists.
  destruct ((es !! index_name) ≫= (.!! doc_id)) as [body|] eqn:Hget; [|done].
  rewrite bool_decide_eq_true_2 by eauto. done.
Qed.

(** C8: [delete_doc] fetches before it tests.  For an id that the index does
    not hold the fetch raises, the store is left as it was and nothing is
    printed; otherwise the document is deleted and its text returned.  The
    branch that reports a missing id is never taken. *)
Theorem delete_doc_fetches_first (es : es_store) (index_name doc_id : str) :
  delete_doc es index_name doc_id
  = match (es !! index_name) ≫= (.!! doc_id) with
    | None => (es, [], Raise NotFoundError)
    | Some body =>
        (alter (delete doc_id) index_name es,
         [Deleting doc_id index_name],
         Ok (document_text body))
    end
  ∧ (DoesNotExist doc_id index_name ∉ snd (fst (delete_doc es index_name doc_id)))
  ∧ (alter (delete doc_id) index_name es !! index_name) ≫= (.!! doc_id) = None.
Proof.
  split_and!.
  - apply delete_doc_eq.
  - rewrite delete_doc_eq.
    destruct ((es !! index_name) ≫= (.!! doc_id)); simpl.
    + rewrite list_elem_of_singleton. discriminate.
    + apply not_elem_of_nil.
  - rewrite lookup_alter_eq.
    destruct (es !! index_name) as [docs|]; simpl; [|done].
    apply lookup_delete_eq.
Qed.

Lemma delete_doc_example :
  delete_doc meal_store (u "meals") (u "3")
  = (alter (delete (u "3")) (u "meals") meal_store,
     [Deleting (u "3") (u "meals")], Ok (u "lunch at noon"))
  ∧ delete_doc meal_store (u "meals") (u "4")
    = (meal_store, [], Raise NotFoundError).
Proof.
  rewrite !delete_doc_eq. unfold meal_store.
  rewrite !lookup_singleton_eq. simpl.
  rewrite lookup_singleton_eq, lookup_singleton_ne by (by vm_compute).
  done.
Qed.

(** ** ElasticRetrieval *)

Section ElasticRetrievalProofs.
Variable es_search : str → Z → list hit.

Lemma hits_loop {A} (f : hit → A) scores ids (docs : list hit) :
  foldl (λ '(doc_score, doc_index) h,
           (doc_score ++ [_score h], doc_index ++ [f h]))
        (scores, ids) docs
  = (scores ++ (_score <$> docs), ids ++ (f <$> docs)).
Proof.
  revert scores ids. induction docs as [|h docs IH]; intros scores ids; simpl.
  - by rewrite !app_nil_r.
  - rewrite IH, <- !app_assoc. done.
Qed.

Lemma get_relevant_doc_eq query k :
  Elastic.get_relevant_doc es_search query k
  = (_score <$> es_search query k, _id <$> es_search query k,
     es_search query k).
Proof. unfold Elastic.get_relevant_doc. by rewrite hits_loop. Qed.

Lemma bulk_loop queries k doc_scores doc_indices total_docs :
  foldl (λ '(doc_scores, doc_indices, total_docs) query,
           let doc_index : list str := [] in
           let docs := es_search query k in
           let '(doc_score, doc_indices) :=
             foldl (λ '(doc_score, doc_indices) h,
                      (doc_score ++ [_score h], doc_indices ++ [PyStr (_id h)]))
                   ([], doc_indices) docs in
           (doc_scores ++ [doc_score],
            doc_indices ++ [PyList doc_index],
            total_docs ++ [docs]))
        (doc_scores, doc_indices, total_docs) queries
  = (doc_scores ++ ((λ query, _score <$> es_search query k) <$> queries),
     doc_indices ++ flat_doc_indices es_search queries k,
     total_docs ++ ((λ query, es_search query k) <$> queries)).
Proof.
  revert doc_scores doc_indices total_docs.
  induction queries as [|query queries IH]; intros ds di td; simpl.
  - by rewrite !app_nil_r.
  - rewrite (hits_loop (λ h, PyStr (_id h))), IH.
    unfold flat_doc_indices. simpl. rewrite <- !app_assoc. done.
Qed.

(** What the bulk search returns: scores and hits are grouped by query, the
    ids are not. *)
Lemma get_relevant_doc_bulk_eq queries k :
  Elastic.get_relevant_doc_bulk es_search queries k
  = ((λ query, _score <$> es_search query k) <$> queries,
     flat_doc_indices es_search queries k,
     (λ query, es_search query k) <$> queries).
Proof. unfold Elastic.get_relevant_doc_bulk. by rewrite bulk_loop. Qed.
Lemma print_loop_runs query topk :
  let docs := es_search query topk in
  ∃ printed,
    py_collect
      (λ i, s ← py_getitem (_score <$> docs) i;
            d ← py_getitem (_id <$> docs) i;
            h ← py_getitem docs i;
            Ok (s, d, document_text (_source h)))
      (py_range (Z.min topk (len docs)))
    = Ok printed.
Proof.
  intros docs. eexists.
  apply (py_collect_ok _
    (λ i, match docs !! i with
          | Some h => (_score h, _id h, document_text (_source h))
          | None => (0%Q, [], [])
          end)).
  intros i Hi. unfold py_range, len in Hi.
  apply elem_of_seq in Hi.
  destruct (lookup_lt_is_Some_2 docs i) as [h Hh]; [lia|].
  rewrite (py_getitem_lookup (_score <$> docs) i (_score h))
    by (by rewrite list_lookup_fmap, Hh).
  rewrite (py_getitem_lookup (_id <$> docs) i (_id h))
    by (by rewrite list_lookup_fmap, Hh).
  rewrite (py_getitem_lookup docs i h) by done.
  by rewrite Hh.
Qed.

(** With at least [topk] hits, [Elastic.retrieve] returns all scores and the first
    [topk] ids. *)
Lemma retrieve_enough_hits query topk :
  topk ≤ len (es_search query topk) →
  Elastic.retrieve es_search query topk
  = Ok (_score <$> es_search query topk,
        take (Z.to_nat topk) (_id <$> es_search query topk)).
Proof.
  intros Hk. unfold Elastic.retrieve. rewrite get_relevant_doc_eq.
  destruct (print_loop_runs query topk) as [printed ->]. simpl.
  unfold py_range. rewrite py_collect_getitem_full; [done|].
  rewrite length_fmap. unfold len in Hk. lia.
Qed.

(** C4 fails on the code: with fewer hits than [topk], none in particular,
    the list of ids built for the result is indexed past its end. *)
Theorem retrieve_raises_on_few_hits (query : str) (topk : Z) :
  len (es_search query topk) < topk →
  Elastic.retrieve es_search query topk = Raise IndexError.
Proof.
  intros Hk. unfold Elastic.retrieve. rewrite get_relevant_doc_eq.
  destruct (print_loop_runs query topk) as [printed ->]. simpl.
  unfold py_range. rewrite py_collect_getitem_short; [done|].
  rewrite length_fmap. unfold len in Hk. lia.
Qed.

Lemma enumerate_loop {A B C} (f : hit → A) (g : hit → B) (F : A → B → C)
    (ids : list A) (hits : list hit) (j : nat) :
  (∀ i h, hits !! i = Some h → ids !! (j + i)%nat = Some (f h)) →
  py_collect (λ '(i, context), doc_id ← py_getitem ids i; Ok (F doc_id context))
             (imap (λ i, pair (j + i)%nat) (g <$> hits))
  = Ok ((λ h, F (f h) (g h)) <$> hits).
Proof.
  revert j. induction hits as [|h hits IH]; intros j Hids; [done|].
  rewrite fmap_cons, imap_cons. cbn [py_collect].
  rewrite (py_getitem_lookup ids (j + 0) (f h)) by (by apply Hids).
  simpl.
  rewrite (imap_ext _ (λ i, pair (S j + i)%nat) (g <$> hits))
    by (intros; simpl; f_equal; lia).
  rewrite IH; [done|].
  intros i h' Hi. replace (S j + i)%nat with (j + S i)%nat by lia.
  by apply Hids.
Qed.

(** C10: the loop body ends in [return], so the rows come from the hits
    of the first question alone, whatever follows it in the dataset. *)
Theorem retrieve_split_first_query_only
    (first : example) (rest : list example) (topk : Z) :
  let hits := es_search (ex_question first) topk in
  Elastic.retrieve_split es_search (first :: rest) topk
  = Ok (Some (rows_of_hits first
                (take (Z.to_nat (Z.min topk (len hits))) hits))).
Proof.
  intros hits. unfold Elastic.retrieve_split.
  rewrite get_relevant_doc_bulk_eq.
  unfold enumerate. rewrite imap_cons. cbn [py_for].
  unfold Elastic.split_body. rewrite fmap_cons.
  rewrite (py_getitem_lookup _ 0 hits) by done.
  cbn [mbind result_bind]. unfold py_range.
  rewrite (py_collect_getitem (λ h, document_text (_source h)) hits 0)
    by (unfold len; lia).
  cbn [mbind result_bind]. rewrite drop_0.
  unfold enumerate.
  rewrite (enumerate_loop (λ h, PyStr (_id h)) (λ h, document_text (_source h))
             (λ doc_id context,
                {| row_question := ex_question first;
                   row_id := doc_id;
                   row_context_id := doc_id;
                   row_context := context;
                   row_original_context :=
                     if bool_decide (is_Some (ex_context first)
                                     ∧ is_Some (ex_answers first))
                     then ex_context first else None;
                   row_answers :=
                     if bool_decide (is_Some (ex_context first)
                                     ∧ is_Some (ex_answers first))
                     then ex_answers first else None |})
             _ _ 0); [done|].
  intros i h Hi. apply lookup_take_Some in Hi as [Hi _].
  unfold flat_doc_indices. rewrite bind_cons.
  rewrite <- app_assoc, lookup_app_l
    by (rewrite length_fmap; by eapply lookup_lt_Some).
  simpl. fold hits. by rewrite list_lookup_fmap, Hi.
Qed.

End ElasticRetrievalProofs.

(** C1 fails on the code at two queries with two hits and one hit: the
    element at index 1 of the returned ids is an id of the first query, where
    the ids of the second query are expected. *)
Theorem bulk_doc_indices_not_aligned :
  let queries := [u "lunch"; u "dinner"] in
  snd (fst (Elastic.get_relevant_doc_bulk meal_search queries 2))
  = [PyStr (u "3"); PyStr (u "7"); PyList []; PyStr (u "5"); PyList []]
  ∧ aligned_doc_indices meal_search queries 2
    = [PyList [u "3"; u "7"]; PyList [u "5"]]
  ∧ snd (fst (Elastic.get_relevant_doc_bulk meal_search queries 2))
    ≠ aligned_doc_indices meal_search queries 2.
Proof.
  cbv zeta. rewrite get_relevant_doc_bulk_eq. by vm_compute.
Qed.

(** ** SparseRetrieval: ranking *)

Lemma Sorted_take {A} (R : relation A) (l : list A) n :
  Sorted R l → Sorted R (take n l).
Proof.
  intros Hl. revert n. induction Hl as [|x l Hl IH Hhd]; intros [|n]; simpl;
    try by constructor.
  constructor; [apply IH|].
  destruct Hhd; destruct n; simpl; by constructor.
Qed.

Lemma py_slice_to_length {A} (l : list A) k :
  len (py_slice_to l k)
  = if 0 <=? k then Z.min k (len l) else Z.max 0 (len l + k).
Proof.
  unfold py_slice_to, len.
  destruct (Z.leb_spec 0 k); rewrite length_take; lia.
Qed.

Lemma py_slice_to_fmap {A B} (f : A → B) (l : list A) k :
  py_slice_to (f <$> l) k = f <$> py_slice_to l k.
Proof.
  unfold py_slice_to. rewrite length_fmap.
  destruct (0 <=? k); by rewrite fmap_take.
Qed.

Lemma py_slice_to_sorted {A} (R : relation A) (l : list A) k :
  Sorted R l → Sorted R (py_slice_to l k).
Proof. unfold py_slice_to. destruct (0 <=? k); apply Sorted_take. Qed.

Global Instance score_le_total xs : Total (score_le xs).
Proof.
  intros i j. unfold score_le. rewrite !Qle_bool_iff.
  destruct (Qlt_le_dec (nth i xs 0%Q) (nth j xs 0%Q)); [left|right]; [|done].
  by apply Qlt_le_weak.
Qed.

Lemma merge_argsort_spec : argsort_spec merge_argsort.
Proof.
  intros xs. unfold merge_argsort. split.
  - apply merge_sort_Permutation.
  - eapply Sorted_fmap; [|apply (Sorted_merge_sort (score_le xs))].
    intros i j Hij. by apply Qle_bool_iff.
Qed.

Section Ranking.
Variable argsort : list Q → list nat.
Hypothesis argsort_ok : argsort_spec argsort.

Lemma argsort_in_range xs i : i ∈ argsort xs → (i < length xs)%nat.
Proof.
  destruct (argsort_ok xs) as [Hperm _]. rewrite Hperm, elem_of_seq. lia.
Qed.

Lemma argsort_length xs : length (argsort xs) = length xs.
Proof.
  destruct (argsort_ok xs) as [Hperm _]. by rewrite Hperm, length_seq.
Qed.

Lemma np_take_in_range xs indices :
  (∀ i, i ∈ indices → (i < length xs)%nat) →
  Sparse.np_take (Nd1 xs) indices = Ok ((λ i, nth i xs 0%Q) <$> indices).
Proof.
  intros Hin. simpl. apply py_collect_ok. intros i Hi.
  destruct (lookup_lt_is_Some_2 xs i) as [x Hx]; [by apply Hin|].
  rewrite (py_getitem_lookup _ _ _ Hx). f_equal.
  symmetry. apply nth_lookup_Some with (d := 0%Q) in Hx. done.
Qed.

(** Ranking a one-dimensional array of scores. *)
Lemma rank_row xs k :
  let order := reverse (argsort xs) in
  Sparse.rank argsort (Nd1 xs) k
  = Ok ((λ i, nth i xs 0%Q) <$> py_slice_to order k, py_slice_to order k).
Proof.
  intros order. unfold Sparse.rank. cbn [Sparse.np_argsort]. fold order.
  rewrite np_take_in_range.
  - simpl. by rewrite py_slice_to_fmap.
  - intros i Hi. apply argsort_in_range.
    unfold order in Hi. by rewrite elem_of_reverse in Hi.
Qed.

Lemma descending_order xs :
  Sorted (flip Qle) ((λ i, nth i xs 0%Q) <$> reverse (argsort xs)).
Proof.
  rewrite fmap_reverse. apply Sorted_reverse.
  by destruct (argsort_ok xs).
Qed.
End Ranking.

Section SparseProofs.
Variable str_lower : str → str.
Variable l2_norm : list Q → Q.
Variable argsort : list Q → list nat.

Abbreviation get_relevant_doc := (Sparse.get_relevant_doc str_lower l2_norm argsort).
Abbreviation get_relevant_doc_bulk :=
  (Sparse.get_relevant_doc_bulk str_lower l2_norm argsort).
Abbreviation similarities := (Sparse.similarities str_lower l2_norm).
Abbreviation accepts := (Sparse.accepts str_lower l2_norm).
Abbreviation analyze := (Sparse.analyze str_lower).

Lemma matmul_T_shapes n a emb :
  Forall (λ row, length row = n) emb →
  matmul_T n a emb = Ok ((λ q, dot q <$> emb) <$> a).
Proof.
  intros Hemb. unfold matmul_T.
  replace (forallb _ emb) with true; [done|].
  symmetry. apply forallb_forall. intros row Hrow.
  apply Nat.eqb_eq. rewrite Forall_forall in Hemb.
  by apply Hemb, list_elem_of_In.
Qed.

(** The single search of a retriever that is ready: the assertion, then
    the ranking of the squeezed scores. *)
Lemma get_relevant_doc_ready self v emb query k :
  ready self v emb →
  get_relevant_doc self query k
  = if accepts v query
    then Sparse.rank argsort (squeeze (similarities v emb query)) k
    else Raise AssertionError.
Proof.
  intros (Hv & Hfit & Hemb & Hshape).
  unfold Sparse.get_relevant_doc, Sparse.transform, Sparse.accepts.
  rewrite Hv, Hfit, Hemb. simpl. rewrite app_nil_r.
  destruct (Qeq_bool _ 0); [done|]. simpl.
  rewrite matmul_T_shapes by done. simpl. by rewrite app_nil_r.
Qed.

Lemma squeeze_row xs : length xs ≠ 1%nat → squeeze xs = Nd1 xs.
Proof. by destruct xs as [|x [|y xs]]. Qed.

(** The single search of a corpus of one document: the scores lose their
    only axis and cannot be indexed by the sorted indices. *)
Lemma get_relevant_doc_one_document self v emb query k :
  ready self v emb → length emb = 1%nat → accepts v query = true →
  get_relevant_doc self query k = Raise IndexError.
Proof.
  intros Hready Hone Hacc.
  rewrite (get_relevant_doc_ready _ _ _ _ _ Hready), Hacc.
  unfold Sparse.similarities. by destruct emb as [|row [|row' emb]].
Qed.

(** The bulk search of one query against the single search, for a corpus
    that does not consist of one document. *)
Lemma bulk_of_one_query self query k :
  (∀ emb, p_embedding self = PyMatrix emb → length emb ≠ 1%nat) →
  get_relevant_doc_bulk self [query] k
  = '(scores, indices) ← get_relevant_doc self query k;
    Ok ([scores], [indices]).
Proof.
  intros Hdocs.
  unfold Sparse.get_relevant_doc_bulk, Sparse.get_relevant_doc, Sparse.transform.
  destruct (tfidfv self) as [| |v]; try done.
  destruct (fitted v); [|done]. simpl.
  destruct (Qeq_bool _ 0); [done|].
  destruct (p_embedding self) as [|emb|] eqn:Hemb; try done.
  unfold matmul_T. destruct (forallb _ emb); [|done]. simpl.
  rewrite !app_nil_r, squeeze_row
    by (rewrite length_fmap; by apply Hdocs).
  by destruct (Sparse.rank argsort _ k) as [[scores indices]|].
Qed.

Lemma np_sum_zero xs : Forall (λ x, x == 0)%Q xs → (np_sum xs == 0)%Q.
Proof.
  induction 1 as [|x xs Hx Hxs IH]; simpl; [reflexivity|].
  rewrite Hx, IH. reflexivity.
Qed.

Lemma normalize_zero row :
  Forall (λ x, x == 0)%Q row →
  Forall (λ x, x == 0)%Q (Sparse.normalize l2_norm row).
Proof.
  intros Hrow. unfold Sparse.normalize.
  destruct (Qeq_bool _ 0); [done|].
  apply Forall_fmap. eapply Forall_impl; [exact Hrow|].
  intros x Hx. simpl. unfold Qdiv. rewrite Hx. apply Qmult_0_l.
Qed.

Lemma term_count_absent v features j :
  (∀ f, f ∈ features → vocabulary_ v !! f = None) →
  Sparse.term_count v features j = 0.
Proof.
  intros Habs. unfold Sparse.term_count.
  replace (filter _ features) with (@nil str); [done|].
  symmetry. induction features as [|f features IH]; [done|].
  rewrite filter_cons_False.
  - apply IH. intros g Hg. apply Habs. by right.
  - rewrite Habs by left. discriminate.
Qed.

Lemma tf_idf_absent v query :
  (∀ f, f ∈ analyze v query → vocabulary_ v !! f = None) →
  Forall (λ x, x == 0)%Q (Sparse.tf_idf str_lower v query).
Proof.
  intros Habs. apply Forall_forall. intros x Hx.
  apply list_elem_of_lookup in Hx as [j Hj].
  unfold Sparse.tf_idf in Hj. rewrite list_lookup_imap in Hj.
  destruct (idf_ v !! j) as [idf|]; [|done].
  injection Hj as <-. rewrite term_count_absent by done.
  apply Qmult_0_l.
Qed.

(** In a vocabulary that holds the first word of each of its bigrams, a
    query whose words are all unknown has no known feature. *)
Lemma unknown_tokens_unknown_features (vocabulary : gmap str nat) tokens :
  (∀ a b, is_Some (vocabulary !! (a ++ SPACE :: b)) → is_Some (vocabulary !! a)) →
  (∀ t, t ∈ tokens → vocabulary !! t = None) →
  ∀ f, f ∈ tokens ++ bigrams tokens → vocabulary !! f = None.
Proof.
  intros Hclosed Htokens f Hf. apply elem_of_app in Hf as [Hf|Hf]; [auto|].
  assert (∃ a b, a ∈ tokens ∧ f = a ++ SPACE :: b) as (a & b & Ha & ->).
  { clear Htokens. induction tokens as [|a [|b rest] IH]; simpl in Hf.
    - by apply elem_of_nil in Hf.
    - by apply elem_of_nil in Hf.
    - apply elem_of_cons in Hf as [->|Hf].
      + exists a, b. split; [left|done].
      + destruct (IH Hf) as (a' & b' & Ha' & ->).
        exists a', b'. split; [by right|done]. }
  destruct (vocabulary !! (a ++ SPACE :: b)) eqn:Hbigram; [|done].
  destruct (Hclosed a b) as [x Hx]; [by eexists|].
  rewrite Htokens in Hx; done.
Qed.

(** C3: a query none of whose features, tokens or bigrams, is in the
    vocabulary has the zero vector and fails the assertion of the search;
    nothing is returned. *)
Theorem out_of_vocabulary_query_rejected
    (self : SparseRetrieval) (v : TfidfVectorizer) (query : str) (k : Z) :
  tfidfv self = PyVectorizer v →
  fitted v = true →
  (∀ f, f ∈ analyze v query → vocabulary_ v !! f = None) →
  Forall (λ x, x == 0)%Q (Sparse.normalize l2_norm (Sparse.tf_idf str_lower v query))
  ∧ get_relevant_doc self query k = Raise AssertionError.
Proof.
  intros Hv Hfit Habs.
  pose proof (normalize_zero _ (tf_idf_absent _ _ Habs)) as Hzero.
  split; [done|].
  unfold Sparse.get_relevant_doc, Sparse.transform.
  rewrite Hv, Hfit. simpl. rewrite app_nil_r.
  apply np_sum_zero, Qeq_bool_iff in Hzero. by rewrite Hzero.
Qed.

Hypothesis argsort_ok : argsort_spec argsort.

(** C2, amended: for a corpus that does not consist of one document and an
    accepted query, the scores come in non-increasing order and, for a
    count [k] that is not negative, there are [min k n] of them, [n] being
    the number of documents: documents of score zero are ranked too.  (A
    negative [k] is a slice bound that drops the last documents.)  Every
    score is the score of the document of the same rank. *)
Theorem rank_sorted_and_cut
    (self : SparseRetrieval) (v : TfidfVectorizer) (emb : list (list Q))
    (query : str) (k : Z) :
  ready self v emb →
  length emb ≠ 1%nat →
  accepts v query = true →
  ∃ scores indices,
    get_relevant_doc self query k = Ok (scores, indices)
    ∧ Sorted (flip Qle) scores
    ∧ len scores = (if 0 <=? k then Z.min k (len emb) else Z.max 0 (len emb + k))
    ∧ len indices = len scores
    ∧ scores = (λ i, nth i (similarities v emb query) 0%Q) <$> indices.
Proof.
  intros Hready Hdocs Hacc.
  rewrite (get_relevant_doc_ready _ _ _ _ _ Hready), Hacc.
  assert (length (similarities v emb query) = length emb) as Hlen
    by apply length_fmap.
  rewrite squeeze_row by congruence.
  rewrite rank_row by done. cbv zeta.
  eexists _, _. split; [done|]. split_and!.
  - rewrite <- py_slice_to_fmap.
    by apply py_slice_to_sorted, descending_order.
  - rewrite <- py_slice_to_fmap, py_slice_to_length.
    unfold len. by rewrite length_fmap, length_reverse, argsort_length, Hlen.
  - unfold len. by rewrite length_fmap.
  - done.
Qed.
End SparseProofs.

(** C2, as stated, fails: of the three documents two contain the query word,
    and with [k = 3] three results come back, the last of score zero. *)
Lemma rank_returns_documents_of_score_zero :
  ∃ scores indices,
    Sparse.get_relevant_doc ascii_lower l2_fixed merge_argsort fruit (u "apple") 3
    = Ok (scores, indices)
    ∧ len scores = 3
    ∧ Sparse.nonzero_similarity_docs ascii_lower l2_fixed fruit (u "apple") = 2
    ∧ len scores
      ≠ Z.min 3 (Sparse.nonzero_similarity_docs ascii_lower l2_fixed fruit (u "apple")).
Proof. eexists _, _. split_and!; by vm_compute. Qed.

(** C5 fails on the code for a corpus of one document: the single search
    raises where the bulk search of the same query returns a result. *)
Theorem single_search_raises_where_bulk_returns :
  Sparse.get_relevant_doc ascii_lower l2_fixed merge_argsort solo (u "apple") 1
  = Raise IndexError
  ∧ ∃ score,
      Sparse.get_relevant_doc_bulk ascii_lower l2_fixed merge_argsort solo
        [u "apple"] 1
      = Ok ([[score]], [[0%nat]]).
Proof. split; [by vm_compute|]. eexists. by vm_compute. Qed.

(** ** SparseRetrieval: the persisted embedding *)

Lemma os_path_join_inj a b c :
  head b ≠ Some 0x2F → head c ≠ Some 0x2F →
  os_path_join a b = os_path_join a c → b = c.
Proof.
  intros Hb Hc. unfold os_path_join.
  rewrite (bool_decide_eq_false_2 (head b = _)) by done.
  rewrite (bool_decide_eq_false_2 (head c = _)) by done.
  destruct (bool_decide _); intros H; apply app_inv_head in H; congruence.
Qed.

Lemma artifact_paths_differ self : Sparse.emd_path self ≠ Sparse.tfidfv_path self.
Proof.
  intros H. apply os_path_join_inj in H; [|by vm_compute..].
  by vm_compute in H.
Qed.

Section Embedding.
Variable fit_transform :
  TfidfVectorizer → list str → result (TfidfVectorizer * list (list Q)).
Variable unwritable : str → bool.

Abbreviation get_sparse_embedding :=
  (Sparse.get_sparse_embedding fit_transform unwritable).

(** The call with a vectoriser in place and an artifact missing. *)
Lemma get_sparse_embedding_rebuild self fs v :
  tfidfv self = PyVectorizer v →
  fs !! Sparse.emd_path self = None ∨ fs !! Sparse.tfidfv_path self = None →
  get_sparse_embedding self fs
  = match fit_transform v (contexts self) with
    | Raise e => (self, fs, Raise e)
    | Ok (v', emb) =>
        let self' := Sparse.with_embedding self (PyMatrix emb) (PyVectorizer v') in
        if unwritable (Sparse.emd_path self) then (self', fs, Raise OSError)
        else if unwritable (Sparse.tfidfv_path self)
             then (self', <[Sparse.emd_path self := PyMatrix emb]> fs, Raise OSError)
             else (self',
                   <[Sparse.tfidfv_path self := PyVectorizer v']>
                     (<[Sparse.emd_path self := PyMatrix emb]> fs),
                   Ok ())
    end.
Proof.
  intros Hv Hmissing. unfold Sparse.get_sparse_embedding. rewrite Hv.
  destruct Hmissing as [-> | ->].
  - by destruct (fit_transform v (contexts self)) as [[v' emb]|e].
  - destruct (fs !! Sparse.emd_path self);
      by destruct (fit_transform v (contexts self)) as [[v' emb]|e].
Qed.

End Embedding.

(** ** Instances on the small corpus and the small store *)

Lemma retrieve_raises_on_few_hits_witness :
  len (meal_search (u "breakfast") 1) < 1
  ∧ Elastic.retrieve meal_search (u "breakfast") 1 = Raise IndexError.
Proof.
  split; [by vm_compute|].
  apply (retrieve_raises_on_few_hits meal_search (u "breakfast") 1).
  by vm_compute.
Defined.

Lemma retrieve_split_example :
  Elastic.retrieve_split meal_search
    [{| ex_question := u "lunch"; ex_id := u "q1";
        ex_context := None; ex_answers := None |};
     {| ex_question := u "dinner"; ex_id := u "q2";
        ex_context := None; ex_answers := None |}] 2
  = Ok (Some
      [{| row_question := u "lunch"; row_id := PyStr (u "3");
          row_context_id := PyStr (u "3"); row_context := u "lunch at noon";
          row_original_context := None; row_answers := None |};
       {| row_question := u "lunch"; row_id := PyStr (u "7");
          row_context_id := PyStr (u "7"); row_context := u "late lunch";
          row_original_context := None; row_answers := None |}]).
Proof. by vm_compute. Qed.

Lemma fruit_ready :
  ready fruit (fst (fitted_model fruit_wiki)) (snd (fitted_model fruit_wiki)).
Proof. repeat split. vm_compute. repeat constructor. Qed.

Lemma rank_sorted_and_cut_witness :
  ready fruit (fst (fitted_model fruit_wiki)) (snd (fitted_model fruit_wiki))
  ∧ ∃ scores indices,
      Sparse.get_relevant_doc ascii_lower l2_fixed merge_argsort fruit (u "apple") 2
      = Ok (scores, indices)
      ∧ Sorted (flip Qle) scores
      ∧ len scores = Z.min 2 (len (snd (fitted_model fruit_wiki)))
      ∧ len indices = len scores
      ∧ scores
        = (λ i, nth i (Sparse.similarities ascii_lower l2_fixed
                         (fst (fitted_model fruit_wiki))
                         (snd (fitted_model fruit_wiki)) (u "apple")) 0%Q)
          <$> indices.
Proof.
  split; [exact fruit_ready|].
  apply (rank_sorted_and_cut ascii_lower l2_fixed merge_argsort merge_argsort_spec
           fruit _ _ (u "apple") 2 fruit_ready);
    by vm_compute.
Defined.

Lemma out_of_vocabulary_query_rejected_witness :
  Forall (λ x, x == 0)%Q
    (Sparse.normalize l2_fixed
       (Sparse.tf_idf ascii_lower (fst (fitted_model fruit_wiki)) (u "durian")))
  ∧ Sparse.get_relevant_doc ascii_lower l2_fixed merge_argsort fruit (u "durian") 2
    = Raise AssertionError.
Proof.
  apply (out_of_vocabulary_query_rejected ascii_lower l2_fixed merge_argsort
           fruit (fst (fitted_model fruit_wiki)) (u "durian") 2);
    [reflexivity | reflexivity |].
  intros f Hf. vm_compute in Hf.
  apply list_elem_of_singleton in Hf as ->. by vm_compute.
Defined.

Lemma toy_fit_transform_fruit :
  toy_fit_transform fresh_vectorizer
    (contexts (Sparse.init split_words (u "data") fruit_wiki))
  = Ok (fst (fitted_model fruit_wiki), snd (fitted_model fruit_wiki)).
Proof.
  unfold toy_fit_transform.
  destruct (toy_features _ _) eqn:Hfeatures; [by vm_compute in Hfeatures|].
  done.
Qed.



(** * Further properties *)

(** ** Normalisation: the shape of the result *)

Lemma squeezed_only_spaces b text :
  squeezed b text → Forall (λ c, is_space c = true → c = SPACE) text.
Proof.
  revert b. induction text as [|c rest IH]; intros b; simpl; [done|].
  destruct (is_space c) eqn:Hc.
  - intros (_ & -> & Hrest). constructor; [done|by eapply IH].
  - intros Hrest. constructor; [by rewrite Hc|by eapply IH].
Qed.

Lemma squeezed_no_double_space b text i :
  squeezed b text → text !! i = Some SPACE → text !! S i ≠ Some SPACE.
Proof.
  revert b i. induction text as [|c rest IH]; intros b i; simpl; [done|].
  destruct (is_space c) eqn:Hc.
  - intros (_ & -> & Hrest). destruct i as [|i]; simpl.
    + intros _. destruct rest as [|d rest]; simpl in *; [done|].
      intros [= ->]. by destruct Hrest as [? _].
    + by eapply IH.
  - intros Hrest. destruct i as [|i]; simpl.
    + intros [= ->]. by vm_compute in Hc.
    + by eapply IH.
Qed.

Lemma lstrip_fixed_head text c :
  lstrip text = text → head text = Some c → is_space c = false.
Proof.
  destruct text as [|d rest]; simpl; [done|].
  intros Hfix [= ->]. destruct (is_space c) eqn:Hc; [|done].
  exfalso. destruct (lstrip_suffix rest) as [dropped Hd].
  apply (f_equal length) in Hfix. apply (f_equal length) in Hd.
  rewrite length_app in Hd. simpl in Hfix. lia.
Qed.

Lemma rstrip_fixed_last text c :
  rstrip text = text → last text = Some c → is_space c = false.
Proof.
  induction text as [|d rest IH]; simpl; [done|].
  destruct (rstrip rest) as [|k kept] eqn:Hk.
  - destruct (is_space d) eqn:Hd; [done|].
    intros [= <-]. by intros [= <-].
  - intros [= <-]. rewrite last_cons_cons. by apply IH.
Qed.

Lemma strip_fixed_ends text :
  lstrip (strip text) = strip text ∧ rstrip (strip text) = strip text.
Proof.
  unfold strip. split.
  - apply lstrip_rstrip_fixed, lstrip_head.
  - apply rstrip_idemp.
Qed.

(** X1: the normalised text consists of allow-listed characters; its only
    whitespace is the plain space, never at either end and never twice in a
    row; newline, backslash, hash and the straight double quote are gone. *)
Theorem preprocess_shape (s : str) :
  Forall (λ c, allowed c = true ∧ (is_space c = true → c = SPACE)) (preprocess s)
  ∧ (∀ c, head (preprocess s) = Some c → is_space c = false)
  ∧ (∀ c, last (preprocess s) = Some c → is_space c = false)
  ∧ (∀ i, preprocess s !! i = Some SPACE → preprocess s !! S i ≠ Some SPACE)
  ∧ Forall (λ c, c ∉ [0x0A; 0x5C; 0x23; 0x22]) (preprocess s).
Proof.
  destruct (preprocess_normal s) as (Hall & Hsq & _).
  pose proof (normal_chars _ Hall Hsq) as Hchars.
  split_and!.
  - apply Forall_and. split; [done|]. by eapply squeezed_only_spaces.
  - intros c. apply lstrip_fixed_head. unfold preprocess. apply strip_fixed_ends.
  - intros c. apply rstrip_fixed_last. unfold preprocess. apply strip_fixed_ends.
  - intros i. by eapply squeezed_no_double_space.
  - eapply Forall_impl; [exact Hchars|]. intros c (Hn & Hb & Hh & Hc).
    rewrite !elem_of_cons, elem_of_nil.
    intros [->|[->|[->|[->|[]]]]]; done.
Qed.

Lemma sub_backslash_n_length text :
  (length (sub_backslash_n text) ≤ length text)%nat.
Proof.
  assert (∀ n text, (length text ≤ n)%nat →
                    (length (sub_backslash_n text) ≤ length text)%nat) as Hn.
  { intros n. induction n as [|n IH]; intros [|c [|d rest]] Hlen;
      cbn [length] in Hlen; try done; try lia.
    change (sub_backslash_n (c :: d :: rest)) with
      (if (c =? 0x5C) && (d =? 0x6E) then SPACE :: sub_backslash_n rest
       else c :: sub_backslash_n (d :: rest)).
    destruct ((c =? 0x5C) && (d =? 0x6E)); cbn [length].
    - apply le_n_S. etrans; [apply IH; lia|]. apply Nat.le_succ_diag_r.
    - apply le_n_S. apply (IH (d :: rest)). cbn [length]. lia. }
  by apply (Hn (length text)).
Qed.

Lemma sub_spaces_length b text : (length (sub_spaces b text) ≤ length text)%nat.
Proof.
  revert b. induction text as [|c rest IH]; intros b; simpl; [done|].
  pose proof (IH true). pose proof (IH false).
  destruct (is_space c); [destruct b|]; simpl; lia.
Qed.

Lemma strip_length text : (length (strip text) ≤ length text)%nat.
Proof.
  unfold strip.
  destruct (lstrip_suffix text) as [d1 H1].
  destruct (rstrip_prefix (lstrip text)) as [d2 H2].
  apply (f_equal length) in H1, H2. rewrite length_app in H1, H2. lia.
Qed.

(** X2: normalisation never makes a text longer. *)
Theorem preprocess_length (s : str) : (length (preprocess s) ≤ length s)%nat.
Proof.
  unfold preprocess, sub_not_allowed, sub_char.
  etrans; [apply strip_length|]. etrans; [apply sub_spaces_length|].
  etrans; [apply List.filter_length_le|]. rewrite length_fmap.
  etrans; [apply sub_backslash_n_length|]. by rewrite length_fmap.
Qed.

(** ** Corpus loaders *)

Lemma preprocess_preprocess_fixed text : preprocess (preprocess text) = preprocess text.
Proof. apply preprocess_fixed, preprocess_normal. Qed.

(** X3: every document that [load_json] or [load_txt] produces is in normal
    form: normalising its text again gives the same text. *)
Theorem corpus_texts_normalised (w : wiki) (dir : folder) :
  Forall (λ d, preprocess (document_text d) = document_text d) (load_json w)
  ∧ Forall (λ d, preprocess (document_text d) = document_text d) (load_txt dir).
Proof.
  split; unfold load_json, load_txt; rewrite <- list_fmap_compose;
    apply Forall_fmap, Forall_true; intros t; apply preprocess_preprocess_fixed.
Qed.

Lemma nub_NoDup_id `{EqDecision A} (l : list A) : NoDup l → nub l = l.
Proof.
  induction 1 as [|x l Hx Hl IH]; simpl; [done|].
  rewrite IH. f_equal. clear IH Hl.
  induction l as [|y l IH]; [done|].
  rewrite not_elem_of_cons in Hx. destruct Hx as [Hxy Hx].
  rewrite filter_cons_True by done. f_equal. by apply IH.
Qed.

(** X4: a collection whose raw texts are pairwise different loses no entry
    and keeps its order: the corpus is the list of its normalised texts. *)
Theorem load_json_distinct_texts (w : wiki) :
  NoDup (snd <$> w) →
  load_json w = (λ entry, {| document_text := preprocess (snd entry) |}) <$> w.
Proof.
  intros Hnd. unfold load_json.
  by rewrite dict_fromkeys_nub, nub_NoDup_id, <- !list_fmap_compose.
Qed.

Lemma filter_fmap_ne `{EqDecision A, EqDecision B} (f : A → B) x (l : list A) :
  (∀ y, y ∈ l → f y = f x → y = x) →
  filter (λ y, y ≠ f x) (f <$> l) = f <$> filter (λ y, y ≠ x) l.
Proof.
  induction l as [|y l IH]; intros Hinj; [done|].
  rewrite fmap_cons. destruct (decide (y = x)) as [->|Hne].
  - rewrite !filter_cons_False by tauto. apply IH.
    intros z Hz. apply Hinj. by right.
  - rewrite !filter_cons_True; [|done|].
    + rewrite fmap_cons. f_equal. apply IH.
      intros z Hz. apply Hinj. by right.
    + intros Heq. apply Hne, Hinj; [left|done].
Qed.

Lemma nub_fmap_inj `{EqDecision A, EqDecision B} (f : A → B) (l : list A) :
  (∀ a b, a ∈ l → b ∈ l → f a = f b → a = b) →
  nub (f <$> l) = f <$> nub l.
Proof.
  induction l as [|x l IH]; intros Hinj; [done|].
  rewrite fmap_cons. cbn [nub]. rewrite fmap_cons.
  rewrite IH by (intros a b Ha Hb; apply Hinj; by right).
  f_equal. apply filter_fmap_ne.
  intros y Hy. apply Hinj; [|left]. right. by rewrite elem_of_nub in Hy.
Qed.

(** X5: on a collection whose raw texts stay different after normalisation
    the loader does what the specification asks: one entry per distinct
    normalised text, in order of first appearance. *)
Theorem load_json_meets_spec (w : wiki) :
  (∀ a b, a ∈ snd <$> w → b ∈ snd <$> w → preprocess a = preprocess b → a = b) →
  load_json w = load_json_spec w
  ∧ NoDup (document_text <$> load_json w).
Proof.
  intros Hinj. assert (load_json w = load_json_spec w) as Heq.
  { unfold load_json, load_json_spec.
    rewrite !dict_fromkeys_nub.
    by rewrite (nub_fmap_inj preprocess (snd <$> w)) by done. }
  split; [done|]. rewrite Heq. unfold load_json_spec.
  rewrite <- list_fmap_compose, dict_fromkeys_nub.
  rewrite (list_fmap_ext _ id (nub _)) by done.
  rewrite list_fmap_id. apply NoDup_nub.
Qed.

Lemma read_uploadedfile_loop texts titles (files : list uploaded) :
  foldl (λ '(texts, titles) file,
           let title := before_dot (file_name file) in
           let text := file_text file in
           (texts ++ [title ++ u " " ++ preprocess text], titles ++ [title]))
        (texts, titles) files
  = (texts ++ ((λ file, before_dot (file_name file) ++ u " "
                          ++ preprocess (file_text file)) <$> files),
     titles ++ ((λ file, before_dot (file_name file)) <$> files)).
Proof.
  revert texts titles. induction files as [|file files IH]; intros texts titles;
    simpl.
  - by rewrite !app_nil_r.
  - rewrite IH, <- !app_assoc. done.
Qed.

Lemma before_dot_spec s :
  (0x2E ∉ before_dot s)
  ∧ (s = before_dot s ∨ ∃ rest, s = before_dot s ++ 0x2E :: rest).
Proof.
  induction s as [|c s (Hno & IH)]; simpl.
  - split; [apply not_elem_of_nil|by left].
  - destruct (Z.eqb_spec c 0x2E) as [->|Hc].
    + split; [apply not_elem_of_nil|]. right. by exists s.
    + split.
      * rewrite not_elem_of_cons. split; [congruence|done].
      * destruct IH as [IH|[rest IH]]; [left|right; exists rest];
          simpl; by rewrite <- IH.
Qed.

(** X6: [read_uploadedfile] gives one document and one title per file, in
    order.  The title is the file name up to its first dot, and the document
    is the title, a space and the normalised content: the title itself is
    not normalised. *)
Theorem read_uploadedfile_titles (files : list uploaded) :
  length (fst (read_uploadedfile files)) = length files
  ∧ length (snd (read_uploadedfile files)) = length files
  ∧ ∀ i file, files !! i = Some file →
      ∃ title,
        snd (read_uploadedfile files) !! i = Some title
        ∧ fst (read_uploadedfile files) !! i
          = Some {| document_text := title ++ SPACE :: preprocess (file_text file) |}
        ∧ (0x2E ∉ title)
        ∧ (file_name file = title ∨ ∃ rest, file_name file = title ++ 0x2E :: rest).
Proof.
  unfold read_uploadedfile. rewrite read_uploadedfile_loop. simpl.
  split_and!; rewrite ?length_fmap; try done.
  intros i file Hi. exists (before_dot (file_name file)).
  rewrite !list_lookup_fmap, Hi. simpl.
  destruct (before_dot_spec (file_name file)) as [Hno Hname]. done.
Qed.

Lemma read_uploadedfile_example :
  read_uploadedfile two_uploads
  = ([{| document_text := u "minutes a b" |}; {| document_text := u "notes " |}],
     [u "minutes"; u "notes"]).
Proof. by vm_compute. Qed.

Lemma load_json_distinct_texts_witness :
  NoDup (snd <$> fruit_wiki)
  ∧ load_json fruit_wiki
    = (λ entry, {| document_text := preprocess (snd entry) |}) <$> fruit_wiki.
Proof.
  assert (NoDup (snd <$> fruit_wiki)) as Hnd
    by (apply (bool_decide_unpack (NoDup (snd <$> fruit_wiki))); by vm_compute).
  split; [exact Hnd|]. exact (load_json_distinct_texts fruit_wiki Hnd).
Defined.

Lemma repeated_wiki_injective a b :
  a ∈ snd <$> repeated_wiki → b ∈ snd <$> repeated_wiki →
  preprocess a = preprocess b → a = b.
Proof.
  intros Ha Hb. simpl in Ha, Hb.
  repeat (apply elem_of_cons in Ha as [->|Ha]);
    try (by apply elem_of_nil in Ha);
    repeat (apply elem_of_cons in Hb as [->|Hb]);
    try (by apply elem_of_nil in Hb);
    try done; by vm_compute.
Qed.

Lemma load_json_meets_spec_witness :
  load_json repeated_wiki = load_json_spec repeated_wiki
  ∧ NoDup (document_text <$> load_json repeated_wiki).
Proof. exact (load_json_meets_spec repeated_wiki repeated_wiki_injective). Defined.

(** ** Index management *)

(** X7: after [delete_index] the index is gone, whether it was there or
    not, and no other index has changed; a missing index is reported and
    the store left as it was. *)
Theorem delete_index_removes (es : es_store) (index_name : str) :
  fst (delete_index es index_name) !! index_name = None
  ∧ (∀ other, other ≠ index_name →
       fst (delete_index es index_name) !! other = es !! other)
  ∧ match es !! index_name with
    | Some _ => snd (delete_index es index_name) = [DeletingIndex index_name]
    | None => delete_index es index_name = (es, [IndexDoesNotExist index_name])
    end.
Proof.
  unfold delete_index.
  destruct (es !! index_name) as [docs|] eqn:Hes.
  - rewrite bool_decide_eq_true_2 by eauto. simpl. split_and!; [|intros other ?|done].
    + apply lookup_delete_eq.
    + by apply lookup_delete_ne.
  - rewrite bool_decide_eq_false_2 by (by intros [? ?]). done.
Qed.

Lemma initial_index_eq (es : es_store) (index_name : str) (setting : setting_file) :
  initial_index es index_name setting
  = let log := if bool_decide (is_Some (es !! index_name))
               then [DeletingIndex index_name]
               else [IndexDoesNotExist index_name] in
    match setting with
    | Json _ => (<[index_name := ∅]> es, log ++ [IndexCreated], Returns ())
    | NotJson _ => (delete index_name es, log, Raises JSONDecodeError)
    | NoFile => (delete index_name es, log, Raises FileNotFoundError)
    end.
Proof.
  unfold initial_index, delete_index, create_index.
  destruct (bool_decide (is_Some (es !! index_name))) eqn:Hex; simpl;
    destruct setting as [|s|s]; simpl; rewrite ?app_nil_r; try done.
  - rewrite lookup_delete_eq, bool_decide_eq_false_2 by (by intros [? ?]).
    by rewrite insert_delete_eq.
  - apply bool_decide_eq_false in Hex.
    rewrite delete_id; [done|]. by apply eq_None_not_Some.
  - apply bool_decide_eq_false in Hex.
    rewrite delete_id; [done|]. by apply eq_None_not_Some.
  - rewrite Hex. done.
Qed.


(** ** Bulk loading *)

Lemma check_data_lookup es index_name doc_id :
  check_data es index_name doc_id
  = match lookup_doc es index_name doc_id with
    | Some body => Ok (document_text body)
    | None => Raise NotFoundError
    end.
Proof.
  unfold check_data, es_get, lookup_doc.
  by destruct ((es !! index_name) ≫= (.!! doc_id)).
Qed.

Lemma u_inj : Inj (=) (=) u.
Proof.
  intros s1. induction s1 as [|a s1 IH]; intros [|b s2]; simpl; try done.
  intros [= Hab Hs]. f_equal; [|by apply IH].
  apply N2Z.inj in Hab.
  rewrite <- (Ascii.ascii_N_embedding a), <- (Ascii.ascii_N_embedding b).
  by rewrite Hab.
Qed.

Lemma int_id_inj : Inj (=) (=) int_id.
Proof. intros a b H. unfold int_id in H. by apply u_inj, (inj pretty) in H. Qed.

Lemma enumerate_indices {A} (l : list A) : fst <$> enumerate l = seq 0 (length l).
Proof.
  unfold enumerate. rewrite fmap_imap.
  rewrite (imap_ext _ (λ j _, j) l) by done.
  rewrite (imap_seq_0 l (λ j, j)). apply list_fmap_id.
Qed.

Lemma elem_of_enumerate {A} (l : list A) i x :
  (i, x) ∈ enumerate l ↔ l !! i = Some x.
Proof.
  unfold enumerate. rewrite elem_of_lookup_imap. split.
  - by intros (j & y & [= -> ->] & Hj).
  - intros Hi. by exists i, x.
Qed.

Lemma put_doc_lookup es index_name d body other_index other :
  lookup_doc (put_doc es index_name d body) other_index other
  = if decide (other_index = index_name ∧ other = d) then Some body
    else lookup_doc es other_index other.
Proof.
  unfold lookup_doc, put_doc.
  destruct (decide (other_index = index_name)) as [->|Hindex].
  - rewrite lookup_insert_eq. simpl.
    destruct (decide (other = d)) as [->|Hd].
    + rewrite lookup_insert_eq. by rewrite decide_True.
    + rewrite lookup_insert_ne by done. rewrite decide_False by tauto.
      by destruct (es !! index_name).
  - rewrite lookup_insert_ne by done. by rewrite decide_False by tauto.
Qed.

Lemma put_doc_index es index_name d body other :
  other ≠ index_name → put_doc es index_name d body !! other = es !! other.
Proof. intros Hne. unfold put_doc. by rewrite lookup_insert_ne. Qed.

Lemma nonempty_elem {A} (l : list A) : l ≠ [] → ∃ x, x ∈ l.
Proof. destruct l as [|x l]; [done|]. intros _. exists x. left. Qed.

Section LoadingProofs.
Variable refuses : str → str → es_body → bool.
Variable index_name : str.
Variable doc_id : nat → result str.

Abbreviation acc := (accepted refuses index_name doc_id).
Abbreviation loop corpus es :=
  (foldl (try_index refuses index_name doc_id) (es, []) (enumerate corpus)).

(** The loop as a list of writes and a list of notices. *)
Lemma loading_loop items es log :
  foldl (try_index refuses index_name doc_id) (es, log) items
  = (put_all index_name es (omap acc items),
     log ++ omap (λ item, match acc item with
                          | Some _ => None
                          | None => Some (UnableToLoad (fst item))
                          end) items).
Proof.
  revert es log. induction items as [|[i text] items IH]; intros es log.
  { simpl. by rewrite app_nil_r. }
  assert (try_index refuses index_name doc_id (es, log) (i, text)
          = match acc (i, text) with
            | Some write => (put_doc es index_name (fst write) (snd write), log)
            | None => (es, log ++ [UnableToLoad i])
            end) as Hstep.
  { unfold try_index, es_index, accepted. simpl.
    destruct (doc_id i) as [d|e]; [|done].
    by destruct (refuses index_name d text). }
  cbn [foldl omap list_omap]. rewrite Hstep.
  destruct (acc (i, text)) as [write|] eqn:Hacc; rewrite IH; [done|].
  by rewrite <- app_assoc.
Qed.

Lemma put_all_index es writes other :
  other ≠ index_name → put_all index_name es writes !! other = es !! other.
Proof.
  intros Hne. revert es. induction writes as [|[d body] writes IH]; intros es;
    simpl; [done|].
  rewrite IH. by apply put_doc_index.
Qed.

Lemma put_all_other es writes d :
  d ∉ fst <$> writes →
  lookup_doc (put_all index_name es writes) index_name d
  = lookup_doc es index_name d.
Proof.
  revert es. induction writes as [|[d' body] writes IH]; intros es Hd;
    simpl in *; [done|].
  rewrite not_elem_of_cons in Hd. destruct Hd as [Hne Hd].
  rewrite IH by done. rewrite put_doc_lookup.
  by rewrite decide_False by (intros [_ ?]; congruence).
Qed.

Lemma put_all_written es writes d body :
  NoDup (fst <$> writes) → (d, body) ∈ writes →
  lookup_doc (put_all index_name es writes) index_name d = Some body.
Proof.
  revert es. induction writes as [|[d' body'] writes IH]; intros es Hnd Hin;
    simpl in *.
  { by apply elem_of_nil in Hin. }
  apply NoDup_cons in Hnd as [Hfresh Hnd].
  apply elem_of_cons in Hin as [[= -> ->]|Hin].
  - rewrite put_all_other by done. rewrite put_doc_lookup.
    by rewrite decide_True.
  - by apply IH.
Qed.

Lemma put_all_exists es writes :
  is_Some (put_all index_name es writes !! index_name)
  ↔ is_Some (es !! index_name) ∨ writes ≠ [].
Proof.
  revert es. induction writes as [|[d body] writes IH]; intros es; simpl.
  - split; [by left|]. by intros [?|?].
  - rewrite IH. unfold put_doc. rewrite lookup_insert_eq.
    split; [by right|]. intros _. left. by eexists.
Qed.

(** The number of documents after writes under fresh, different ids. *)
Lemma put_all_size es writes docs :
  es !! index_name = Some docs →
  NoDup (fst <$> writes) →
  (∀ d, d ∈ fst <$> writes → docs !! d = None) →
  ∃ docs', put_all index_name es writes !! index_name = Some docs'
           ∧ size docs' = (size docs + length writes)%nat.
Proof.
  revert es docs. induction writes as [|[d body] writes IH];
    intros es docs Hes Hnd Hfresh; simpl in *.
  { exists docs. split; [done|lia]. }
  apply NoDup_cons in Hnd as [Hd Hnd].
  destruct (IH (put_doc es index_name d body) (<[d := body]> docs))
    as (docs' & Hdocs' & Hsize); [| done | |].
  - unfold put_doc. by rewrite lookup_insert_eq, Hes.
  - intros d' Hd'. rewrite lookup_insert_ne by (intros ->; done).
    apply Hfresh. by right.
  - exists docs'. split; [done|].
    rewrite Hsize, map_size_insert_None by (apply Hfresh; left). lia.
Qed.

Lemma accepted_writes_elem corpus d body :
  (d, body) ∈ omap acc (enumerate corpus)
  ↔ ∃ i, corpus !! i = Some body ∧ acc (i, body) = Some (d, body).
Proof.
  rewrite list_elem_of_omap. split.
  - intros ([i text] & Hin & Hacc). apply elem_of_enumerate in Hin.
    assert (text = body) as ->.
    { unfold accepted in Hacc. simpl in Hacc.
      destruct (doc_id i); [|done].
      destruct (refuses _ _ _); [done|]. by injection Hacc. }
    by exists i.
  - intros (i & Hi & Hacc). exists (i, body).
    by rewrite elem_of_enumerate.
Qed.

Lemma accepted_writes_key corpus d :
  d ∈ fst <$> omap acc (enumerate corpus) →
  ∃ i body, corpus !! i = Some body ∧ doc_id i = Ok d
            ∧ refuses index_name d body = false.
Proof.
  intros Hin. apply list_elem_of_fmap in Hin as ([d' body] & Hd' & Hin).
  simpl in Hd'. subst d'.
  apply accepted_writes_elem in Hin as (i & Hi & Hacc).
  exists i, body. unfold accepted in Hacc. simpl in Hacc.
  destruct (doc_id i) as [di|]; [|done].
  destruct (refuses index_name di body) eqn:Href; [done|].
  injection Hacc as ->. done.
Qed.

(** What the loop leaves alone, what it prints, and whether the index
    exists afterwards. *)
Lemma loading_loop_frame (corpus : list es_body) (es : es_store) :
  (∀ d, (∀ i, (i < length corpus)%nat → doc_id i ≠ Ok d) →
        lookup_doc (fst (loop corpus es)) index_name d = lookup_doc es index_name d)
  ∧ (∀ other, other ≠ index_name → fst (loop corpus es) !! other = es !! other)
  ∧ (∀ i, UnableToLoad i ∈ snd (loop corpus es)
          ↔ ∃ body, corpus !! i = Some body ∧ acc (i, body) = None)
  ∧ (is_Some (fst (loop corpus es) !! index_name)
     ↔ is_Some (es !! index_name)
       ∨ ∃ i body, corpus !! i = Some body ∧ is_Some (acc (i, body))).
Proof.
  rewrite loading_loop. cbn [fst snd app]. split_and!.
  - intros d Hd. apply put_all_other. intros Hin.
    apply accepted_writes_key in Hin as (i & body & Hi & Hid & _).
    by apply (Hd i); [eapply lookup_lt_Some|].
  - intros other. apply put_all_index.
  - intros i. rewrite list_elem_of_omap. split.
    + intros ([j text] & Hin & Hev). apply elem_of_enumerate in Hin.
      destruct (acc (j, text)) eqn:Hacc; [done|].
      injection Hev as ->. by exists text.
    + intros (body & Hi & Hacc). exists (i, body).
      rewrite elem_of_enumerate, Hacc. done.
  - rewrite put_all_exists. apply or_iff_compat_l. split.
    + intros Hne. apply nonempty_elem in Hne as [[d body] Hin].
      apply accepted_writes_elem in Hin as (i & Hi & Hacc). exists i, body.
      by rewrite Hacc.
    + intros (i & body & Hi & [[d body'] Hacc]) Hnil.
      assert ((d, body') ∈ omap acc (enumerate corpus)) as Hin.
      { apply list_elem_of_omap. exists (i, body). by rewrite elem_of_enumerate. }
      rewrite Hnil in Hin. by apply elem_of_nil in Hin.
Qed.

Hypothesis doc_id_inj : ∀ i j d, doc_id i = Ok d → doc_id j = Ok d → i = j.

Lemma accepted_keys_NoDup items :
  NoDup (fst <$> items) → NoDup (fst <$> omap acc items).
Proof.
  induction items as [|[i text] items IH]; intros Hnd; [constructor|].
  rewrite fmap_cons in Hnd. apply NoDup_cons in Hnd as [Hi Hnd].
  cbn [omap list_omap]. destruct (acc (i, text)) as [[d body]|] eqn:Hacc;
    [|by apply IH].
  rewrite fmap_cons. apply NoDup_cons. split; [|by apply IH].
  intros Hd. apply list_elem_of_fmap in Hd as ([d' body'] & Hd' & Hin).
  simpl in Hd'. subst d'.
  apply list_elem_of_omap in Hin as ([j text'] & Hj & Hacc').
  apply Hi. apply list_elem_of_fmap. exists (j, text'). split; [|done]. simpl.
  unfold accepted in Hacc, Hacc'. simpl in Hacc, Hacc'.
  destruct (doc_id i) as [di|] eqn:Hdi; [|done].
  destruct (doc_id j) as [dj|] eqn:Hdj; [|done].
  destruct (refuses index_name di text); [done|].
  destruct (refuses index_name dj text'); [done|].
  injection Hacc as -> _. injection Hacc' as -> _.
  by eapply doc_id_inj.
Qed.

Lemma accepted_writes_NoDup corpus : NoDup (fst <$> omap acc (enumerate corpus)).
Proof. apply accepted_keys_NoDup. rewrite enumerate_indices. apply NoDup_seq. Qed.

(** With ids that differ from turn to turn: a document is stored unless the
    store refuses it, and a refused one leaves its id as it was. *)
Lemma loading_loop_stored (corpus : list es_body) (es : es_store) i body d :
  corpus !! i = Some body → doc_id i = Ok d →
  lookup_doc (fst (loop corpus es)) index_name d
  = if refuses index_name d body then lookup_doc es index_name d else Some body.
Proof.
  intros Hi Hd. rewrite loading_loop. cbn [fst].
  destruct (refuses index_name d body) eqn:Href.
  - apply put_all_other. intros Hin.
    apply accepted_writes_key in Hin as (j & body' & Hj & Hdj & Href').
    assert (j = i) as -> by (by eapply doc_id_inj).
    congruence.
  - apply put_all_written; [apply accepted_writes_NoDup|].
    apply accepted_writes_elem. exists i.
    split; [done|]. unfold accepted. simpl. by rewrite Hd, Href.
Qed.

(** The count after the loop when the store refuses nothing and every id
    is new to the index. *)
Lemma loading_loop_count (corpus : list es_body) (es : es_store) docs :
  es !! index_name = Some docs →
  (∀ i body, corpus !! i = Some body →
     ∃ d, doc_id i = Ok d ∧ refuses index_name d body = false ∧ docs !! d = None) →
  count_doc (fst (loop corpus es)) index_name
  = Ok (Z.of_nat (size docs) + len corpus).
Proof.
  intros Hes Hall. rewrite loading_loop. cbn [fst].
  destruct (put_all_size es (omap acc (enumerate corpus)) docs Hes)
    as (docs' & Hdocs' & Hsize).
  - apply accepted_writes_NoDup.
  - intros d Hd.
    apply accepted_writes_key in Hd as (i & body & Hi & Hid & _).
    destruct (Hall i body Hi) as (d' & Hd' & _ & Hfresh). congruence.
  - unfold count_doc. rewrite Hdocs', Hsize. f_equal.
    assert (length (omap acc (enumerate corpus)) = length corpus) as ->; [|unfold len; lia].
    rewrite <- (length_fmap fst).
    assert (omap acc (enumerate corpus)
            = (λ item, match doc_id (fst item) with
                       | Ok d => (d, snd item)
                       | Raise _ => ([], snd item)
                       end) <$> enumerate corpus) as ->.
    { apply list_eq. intros k.
      assert (∀ items : list (nat * es_body),
                (∀ item, item ∈ items → ∃ d, doc_id (fst item) = Ok d
                                             ∧ refuses index_name d (snd item) = false) →
                omap acc items
                = (λ item, match doc_id (fst item) with
                           | Ok d => (d, snd item)
                           | Raise _ => ([], snd item)
                           end) <$> items) as Hmap.
      { induction items as [|item items IH]; intros Hitems; [done|].
        cbn [omap list_omap]. rewrite fmap_cons.
        destruct (Hitems item) as (d & Hd & Href); [left|].
        unfold accepted at 1. rewrite Hd, Href. f_equal.
        apply IH. intros item' Hin. apply Hitems. by right. }
      rewrite Hmap; [done|]. intros [j body] Hin.
      apply elem_of_enumerate in Hin.
      destruct (Hall j body Hin) as (d & Hd & Href & _). by exists d. }
    rewrite !length_fmap. unfold enumerate. apply length_imap.
Qed.
End LoadingProofs.

Lemma count_doc_is_Some es index_name :
  (∃ n, count_doc es index_name = Ok n) ↔ is_Some (es !! index_name).
Proof.
  unfold count_doc. destruct (es !! index_name) as [docs|].
  - split; [by eexists|]. intros _. by eexists.
  - split; [by intros [? ?]|by intros [? ?]].
Qed.

Section LoadingTheorems.
Variable refuses : str → str → es_body → bool.

Lemma insert_data_json_eq es index_name w dir start_id :
  insert_data refuses es index_name (u "json") w dir start_id
  = let state :=
      foldl (try_index refuses index_name
               (λ i, Ok (int_id (default 0 start_id + Z.of_nat i))))
            (es, []) (enumerate (load_json w)) in
    match count_doc (fst state) index_name with
    | Raise e => (fst state, snd state, Raises (Builtin e))
    | Ok n_records =>
        (fst state, snd state ++ [Loaded n_records index_name; InsertDone],
         Returns ())
    end.
Proof.
  unfold insert_data. rewrite bool_decide_eq_true_2 by done. cbv zeta.
  destruct start_id as [start|]; cbn [default from_option id].
  - by destruct (foldl _ (es, []) _) as [es1 log1].
  - change (λ i : nat, Ok (int_id (0 + Z.of_nat i)))
      with (λ i : nat, @Ok str (int_id (Z.of_nat i))).
    by destruct (foldl _ (es, []) _) as [es1 log1].
Qed.

Lemma int_ids_differ (start : Z) i j d :
  (Ok (int_id (start + Z.of_nat i)) : result str) = Ok d →
  (Ok (int_id (start + Z.of_nat j)) : result str) = Ok d → i = j.
Proof.
  intros [= <-] [= Hj]. apply int_id_inj in Hj. lia.
Qed.

(** X9: [insert_data] on a collection file files the i-th document of the
    loader under the decimal digits of [start_id + i] (of [i] without a
    start).  A document that the store refuses is skipped with a notice and
    the loop goes on; ids outside this range and other indices are not
    touched.  The call raises only when the index is still missing at the
    end, and raises for a [type] that is neither ["json"] nor ["txt"]. *)
Theorem insert_data_json (es : es_store) (index_name : str) (w : wiki)
    (dir : folder) (start_id : option Z) :
  let doc_id i := int_id (default 0 start_id + Z.of_nat i) in
  let r := insert_data refuses es index_name (u "json") w dir start_id in
  (∀ i body, load_json w !! i = Some body →
     check_data (fst (fst r)) index_name (doc_id i)
     = (if refuses index_name (doc_id i) body
        then check_data es index_name (doc_id i)
        else Ok (document_text body))
     ∧ (UnableToLoad i ∈ snd (fst r) ↔ refuses index_name (doc_id i) body = true))
  ∧ (∀ d, (∀ i, (i < length (load_json w))%nat → d ≠ doc_id i) →
          check_data (fst (fst r)) index_name d = check_data es index_name d)
  ∧ (∀ other, other ≠ index_name → fst (fst r) !! other = es !! other)
  ∧ (snd r = Returns ()
     ↔ is_Some (es !! index_name)
       ∨ ∃ i body, load_json w !! i = Some body
                   ∧ refuses index_name (doc_id i) body = false)
  ∧ (snd r = Returns () ∨ snd r = Raises (Builtin NotFoundError))
  ∧ (∀ type, type ≠ u "json" → type ≠ u "txt" →
       insert_data refuses es index_name type w dir start_id
       = (es, [], Raises UnboundLocalError)).
Proof.
  intros doc_id r. unfold r. clear r. rewrite insert_data_json_eq. cbv zeta.
  set (ids := λ i : nat, (Ok (doc_id i) : result str)).
  change (λ i : nat, Ok (int_id (default 0 start_id + Z.of_nat i))) with ids.
  set (state := foldl (try_index refuses index_name ids) (es, [])
                      (enumerate (load_json w))).
  destruct (loading_loop_frame refuses index_name ids (load_json w) es)
    as (Hother & Hindex & Hlog & Hexists).
  fold state in Hother, Hindex, Hlog, Hexists.
  assert (∀ i body, accepted refuses index_name ids (i, body) = None
                    ↔ refuses index_name (doc_id i) body = true) as Hacc.
  { intros i body. unfold accepted, ids. simpl.
    by destruct (refuses index_name (doc_id i) body). }
  assert (fst (fst (match count_doc (fst state) index_name with
                    | Ok n => (fst state, snd state ++ [Loaded n index_name; InsertDone],
                               Returns ())
                    | Raise e => (fst state, snd state, Raises (Builtin e))
                    end)) = fst state) as Hfst
    by (by destruct (count_doc (fst state) index_name)).
  rewrite Hfst. split_and!.
  - intros i body Hi. split.
    + rewrite !check_data_lookup.
      pose proof (loading_loop_stored refuses index_name ids
                    (int_ids_differ (default 0 start_id)) (load_json w) es i body
                    (doc_id i) Hi eq_refl) as Hstored.
      fold state in Hstored. rewrite Hstored.
      by destruct (refuses index_name (doc_id i) body).
    + rewrite <- Hacc.
      assert (UnableToLoad i ∈ snd state
              ↔ ∃ body', load_json w !! i = Some body'
                         ∧ accepted refuses index_name ids (i, body') = None)
        as Hi' by apply Hlog.
      destruct (count_doc (fst state) index_name); cbn [fst snd];
        rewrite ?elem_of_app, ?elem_of_cons, ?elem_of_nil, Hi'.
      * split; [|by eauto].
        intros [(body' & Hb & ?)|[?|[?|[]]]]; try done. congruence.
      * split; [|by eauto]. intros (body' & Hb & ?). congruence.
  - intros d Hd. rewrite !check_data_lookup, Hother; [done|].
    intros i Hi [= <-]. by apply (Hd i).
  - done.
  - assert ((∃ n, count_doc (fst state) index_name = Ok n)
            ↔ is_Some (es !! index_name)
              ∨ ∃ i body, load_json w !! i = Some body
                          ∧ refuses index_name (doc_id i) body = false) as Hcount.
    { rewrite count_doc_is_Some, Hexists. apply or_iff_compat_l.
      split; intros (i & body & Hi & Hsome); exists i, body; split; try done.
      - destruct (refuses index_name (doc_id i) body) eqn:Href; [|done].
        apply Hacc in Href. rewrite Href in Hsome. by destruct Hsome.
      - unfold accepted, ids. simpl. rewrite Hsome. by eexists. }
    rewrite <- Hcount.
    destruct (count_doc (fst state) index_name) as [n|e]; cbn [snd].
    + split; [by eexists|done].
    + split; [done|]. by intros [? ?].
  - unfold count_doc. destruct (fst state !! index_name); cbn [snd]; auto.
  - intros type Hjson Htxt. unfold insert_data.
    by rewrite !bool_decide_eq_false_2 by done.
Qed.
Lemma count_doc_Ok_match {A} es index_name n (f : Z → A) (g : exn → A) :
  count_doc es index_name = Ok n →
  match count_doc es index_name with Ok n => f n | Raise e => g e end = f n.
Proof. by intros ->. Qed.

(** X10: the load of [main].  After [initial_index], with a settings file
    that [json.load] parses, and [insert_data] on a collection file, with a store that refuses nothing, the index holds the
    corpus of the loader and nothing else: the count is the number of
    documents, [check_data] on the digits of [i] returns the i-th text, and
    every other id is unknown. *)
Theorem load_after_reset (es : es_store) (index_name setting : str)
    (w : wiki) (dir : folder) :
  (∀ d body, refuses index_name d body = false) →
  let es1 := fst (fst (initial_index es index_name (Json setting))) in
  let r := insert_data refuses es1 index_name (u "json") w dir None in
  snd r = Returns ()
  ∧ count_doc (fst (fst r)) index_name = Ok (len (load_json w))
  ∧ (∀ i body, load_json w !! i = Some body →
       check_data (fst (fst r)) index_name (int_id (Z.of_nat i))
       = Ok (document_text body))
  ∧ (∀ d, (∀ i, (i < length (load_json w))%nat → d ≠ int_id (Z.of_nat i)) →
          check_data (fst (fst r)) index_name d = Raise NotFoundError)
  ∧ Loaded (len (load_json w)) index_name ∈ snd (fst r).
Proof.
  intros Haccept es1 r. unfold r, es1. clear r es1.
  rewrite initial_index_eq. cbn [fst]. rewrite insert_data_json_eq. cbv zeta.
  cbn [default from_option id].
  set (ids := λ i : nat, (Ok (int_id (Z.of_nat i)) : result str)).
  change (λ i : nat, Ok (int_id (0 + Z.of_nat i))) with ids.
  set (es1 := <[index_name := ∅]> es).
  set (state := foldl (try_index refuses index_name ids) (es1, [])
                      (enumerate (load_json w))).
  assert (es1 !! index_name = Some ∅) as Hes1 by apply lookup_insert_eq.
  assert (∀ d, lookup_doc es1 index_name d = None) as Hempty.
  { intros d. unfold lookup_doc. by rewrite Hes1. }
  assert (count_doc (fst state) index_name = Ok (len (load_json w))) as Hcount.
  { unfold state.
    rewrite (loading_loop_count refuses index_name ids (int_ids_differ 0)
               (load_json w) es1 ∅ Hes1); [done|].
    intros i body Hi. exists (int_id (Z.of_nat i)). by rewrite Haccept. }
  rewrite (count_doc_Ok_match _ _ _ _ _ Hcount). cbn [fst snd].
  destruct (loading_loop_frame refuses index_name ids (load_json w) es1)
    as (Hother & _).
  fold state in Hother.
  split_and!; [done|done| | |].
  - intros i body Hi. rewrite check_data_lookup.
    pose proof (loading_loop_stored refuses index_name ids (int_ids_differ 0)
                  (load_json w) es1 i body _ Hi eq_refl) as Hstored.
    fold state in Hstored. by rewrite Hstored, Haccept.
  - intros d Hd. rewrite check_data_lookup, Hother, Hempty; [done|].
    intros i Hi [= <-]. by apply (Hd i).
  - rewrite elem_of_app. right. left.
Qed.

Lemma insert_data_st_eq es index_name corpus titles start_id :
  insert_data_st refuses es index_name corpus titles start_id
  = let doc_id i :=
      match start_id with
      | Some start => Ok (int_id (start + Z.of_nat i))
      | None => py_getitem titles i
      end in
    let state := foldl (try_index refuses index_name doc_id) (es, [])
                       (enumerate corpus) in
    match count_doc (fst state) index_name with
    | Raise e => (fst state, snd state, Raises (Builtin e))
    | Ok n_records =>
        (fst state, snd state ++ [Loaded n_records index_name], Returns ())
    end.
Proof.
  unfold insert_data_st. cbv zeta.
  by destruct (foldl _ (es, []) _) as [es1 log1].
Qed.

Lemma titles_differ (titles : list str) i j d :
  NoDup titles → py_getitem titles i = Ok d → py_getitem titles j = Ok d → i = j.
Proof.
  intros Hnd. unfold py_getitem.
  destruct (titles !! i) as [ti|] eqn:Hi; [|done].
  destruct (titles !! j) as [tj|] eqn:Hj; [|done].
  intros [= ->] [= ->]. by eapply NoDup_lookup.
Qed.

(** X11: [insert_data_st] without a start id files the i-th document under
    the i-th title.  With titles that are pairwise different every document
    that has a title is stored unless the store refuses it; a document
    past the end of the titles is skipped with a notice, the lookup error
    being swallowed with the others; ids that are no titles are left alone. *)
Theorem insert_data_st_titles (es : es_store) (index_name : str)
    (corpus : list es_body) (titles : list str) :
  NoDup titles →
  let r := insert_data_st refuses es index_name corpus titles None in
  (∀ i body title, corpus !! i = Some body → titles !! i = Some title →
     check_data (fst (fst r)) index_name title
     = if refuses index_name title body then check_data es index_name title
       else Ok (document_text body))
  ∧ (∀ i, (length titles ≤ i < length corpus)%nat → UnableToLoad i ∈ snd (fst r))
  ∧ (∀ d, d ∉ titles →
          check_data (fst (fst r)) index_name d = check_data es index_name d)
  ∧ (∀ other, other ≠ index_name → fst (fst r) !! other = es !! other).
Proof.
  intros Hnd r. unfold r. clear r. rewrite insert_data_st_eq. cbv zeta.
  set (state := foldl (try_index refuses index_name (py_getitem titles)) (es, [])
                      (enumerate corpus)).
  destruct (loading_loop_frame refuses index_name (py_getitem titles) corpus es)
    as (Hother & Hindex & Hlog & _).
  fold state in Hother, Hindex, Hlog.
  assert (∀ (f : Z → list index_event),
            fst (fst (match count_doc (fst state) index_name with
                      | Ok n => (fst state, snd state ++ f n, Returns ())
                      | Raise e => (fst state, snd state, Raises (Builtin e))
                      end)) = fst state) as Hfst
    by (intros f; by destruct (count_doc (fst state) index_name)).
  rewrite (Hfst (λ n, [Loaded n index_name])). split_and!.
  - intros i body title Hi Ht. rewrite !check_data_lookup.
    pose proof (loading_loop_stored refuses index_name (py_getitem titles)
                  (λ i j d, titles_differ titles i j d Hnd) corpus es i body title Hi
                  (py_getitem_lookup _ _ _ Ht)) as Hstored.
    fold state in Hstored. rewrite Hstored.
    by destruct (refuses index_name title body).
  - intros i [Hlo Hhi].
    assert (UnableToLoad i ∈ snd state) as Hin.
    { apply Hlog. destruct (lookup_lt_is_Some_2 corpus i Hhi) as [body Hbody].
      exists body. split; [done|]. unfold accepted. simpl.
      by rewrite py_getitem_out. }
    destruct (count_doc (fst state) index_name); cbn [fst snd]; [|done].
    apply elem_of_app. by left.
  - intros d Hd. rewrite !check_data_lookup, Hother; [done|].
    intros i Hi Hget. apply Hd. unfold py_getitem in Hget.
    destruct (titles !! i) as [t|] eqn:Ht; [|done].
    injection Hget as <-. by eapply list_elem_of_lookup_2.
  - done.
Qed.



(** X13: [user_setting] in its second mode numbers the new documents from
    the count of the index on.  With a store that refuses nothing, and an
    index none of whose documents bears one of these numbers, every
    document that was there is kept, the i-th new one is found under the
    digits of the count plus [i], and the count grows by the number of new
    documents; the titles play no part. *)
Theorem user_setting_second (es : es_store) (index_name : str)
    (corpus : list es_body) (titles : list str) (setting : setting_file)
    (docs : gmap str es_body) :
  (∀ d body, refuses index_name d body = false) →
  es !! index_name = Some docs →
  (∀ i, (i < length corpus)%nat →
        docs !! int_id (Z.of_nat (size docs) + Z.of_nat i) = None) →
  let r := user_setting refuses es index_name corpus titles (u "second") setting in
  snd r = Returns ()
  ∧ count_doc (fst (fst r)) index_name = Ok (Z.of_nat (size docs) + len corpus)
  ∧ (∀ d body, docs !! d = Some body →
       check_data (fst (fst r)) index_name d = Ok (document_text body))
  ∧ (∀ i body, corpus !! i = Some body →
       check_data (fst (fst r)) index_name
         (int_id (Z.of_nat (size docs) + Z.of_nat i))
       = Ok (document_text body)).
Proof.
  intros Haccept Hes Hfresh r.
  set (ids := λ i : nat,
         (Ok (int_id (Z.of_nat (size docs) + Z.of_nat i)) : result str)).
  set (state := foldl (try_index refuses index_name ids) (es, [])
                      (enumerate corpus)).
  assert (count_doc (fst state) index_name
          = Ok (Z.of_nat (size docs) + len corpus)) as Hcount.
  { unfold state.
    rewrite (loading_loop_count refuses index_name ids
               (int_ids_differ (Z.of_nat (size docs))) corpus es docs Hes); [done|].
    intros i body Hi. eexists. split; [done|]. split; [apply Haccept|].
    apply Hfresh. by eapply lookup_lt_Some. }
  assert (∃ log, r = (fst state, log, Returns ())) as [log Hr].
  { unfold r, user_setting.
    rewrite bool_decide_eq_false_2 by (by vm_compute).
    rewrite bool_decide_eq_true_2 by done.
    unfold count_doc at 1. rewrite Hes. rewrite insert_data_st_eq. cbv zeta.
    fold ids. fold state. rewrite Hcount. by eexists. }
  rewrite Hr. cbn [fst snd].
  destruct (loading_loop_frame refuses index_name ids corpus es)
    as (Hother & _).
  fold state in Hother.
  split_and!; [done|done| |].
  - intros d body Hd. rewrite check_data_lookup, Hother.
    + unfold lookup_doc. rewrite Hes. simpl. by rewrite Hd.
    + intros i Hi [= <-]. rewrite Hfresh in Hd; done.
  - intros i body Hi. rewrite check_data_lookup.
    pose proof (loading_loop_stored refuses index_name ids
                  (int_ids_differ (Z.of_nat (size docs))) corpus es i body _ Hi
                  eq_refl) as Hstored.
    fold state in Hstored. by rewrite Hstored, Haccept.
Qed.
End LoadingTheorems.

Lemma load_after_reset_witness :
  let r := insert_data accepts_all
             (fst (fst (initial_index meal_store (u "meals") (Json (u "{}")))))
             (u "meals") (u "json") fruit_wiki [] None in
  snd r = Returns ()
  ∧ count_doc (fst (fst r)) (u "meals") = Ok (len (load_json fruit_wiki))
  ∧ check_data (fst (fst r)) (u "meals") (u "3") = Raise NotFoundError.
Proof.
  pose proof (load_after_reset accepts_all meal_store (u "meals") (u "{}")
                fruit_wiki [] (λ _ _, eq_refl)) as (Hout & Hcount & _ & Hother & _).
  split_and!; [exact Hout | exact Hcount |].
  apply Hother. intros i Hi.
  destruct i as [|[|[|i]]]; [by vm_compute..|]. vm_compute in Hi. lia.
Defined.

Lemma insert_data_st_titles_witness :
  let r := insert_data_st refuses_empty ∅ (u "meals") minutes_corpus
             [u "minutes"] None in
  check_data (fst (fst r)) (u "meals") (u "minutes") = Ok (u "minutes a b")
  ∧ UnableToLoad 1 ∈ snd (fst r).
Proof.
  assert (NoDup [u "minutes"]) as Hnd by (apply NoDup_singleton).
  pose proof (insert_data_st_titles refuses_empty ∅ (u "meals") minutes_corpus
                [u "minutes"] Hnd) as (Hstored & Hskipped & _).
  split.
  - exact (Hstored 0%nat _ _ eq_refl eq_refl).
  - apply Hskipped. simpl. lia.
Defined.

Lemma user_setting_second_witness :
  let r := user_setting accepts_all meal_store (u "meals") minutes_corpus
             [u "minutes"; u "notes"] (u "second") NoFile in
  snd r = Returns ()
  ∧ check_data (fst (fst r)) (u "meals") (u "3") = Ok (u "lunch at noon")
  ∧ check_data (fst (fst r)) (u "meals") (u "1") = Ok (u "minutes a b")
  ∧ check_data (fst (fst r)) (u "meals") (u "2") = Ok (u "notes").
Proof.
  assert (meal_store !! u "meals"
          = Some {[ u "3" := {| document_text := u "lunch at noon" |} ]}) as Hes
    by apply lookup_singleton_eq.
  pose proof (user_setting_second accepts_all meal_store (u "meals") minutes_corpus
                [u "minutes"; u "notes"] NoFile _ (λ _ _, eq_refl) Hes)
    as Hsecond.
  rewrite map_size_singleton in Hsecond.
  destruct Hsecond as (Hout & _ & Hold & Hnew).
  { intros i Hi. apply lookup_singleton_ne.
    destruct i as [|[|i]]; [by vm_compute..|]. simpl in Hi. lia. }
  split_and!.
  - exact Hout.
  - apply (Hold (u "3") {| document_text := u "lunch at noon" |}).
    apply lookup_singleton_eq.
  - exact (Hnew 0%nat _ eq_refl).
  - exact (Hnew 1%nat _ eq_refl).
Defined.

(** ** ElasticRetrieval: results per query *)

Section ElasticFrames.
Variable es_search : str → Z → list hit.

(** X14: with at least [topk] hits [retrieve] on a query string returns the
    scores of all hits and the ids of the first [topk] hits, in the order of
    the store; only the ids are cut. *)
Theorem retrieve_returns_first_ids (query : str) (topk : Z) :
  topk ≤ len (es_search query topk) →
  Elastic.retrieve es_search query topk
  = Ok (_score <$> es_search query topk,
        _id <$> take (Z.to_nat topk) (es_search query topk)).
Proof.
  intros Hk. unfold Elastic.retrieve. rewrite get_relevant_doc_eq.
  destruct (print_loop_runs es_search query topk) as [printed ->]. simpl.
  unfold py_range. rewrite py_collect_getitem_full, fmap_take; [done|].
  rewrite length_fmap. unfold len in Hk. lia.
Qed.

Lemma flat_doc_indices_length queries k :
  length (flat_doc_indices es_search queries k)
  = (length queries + length (queries ≫= λ query, es_search query k))%nat.
Proof.
  unfold flat_doc_indices. induction queries as [|query queries IH]; [done|].
  rewrite !bind_cons, !length_app, IH, length_fmap. simpl. lia.
Qed.



Lemma retrieved_context_run (hits : list hit) topk :
  py_collect (λ i, h ← py_getitem hits i; Ok (document_text (_source h)))
             (py_range (Z.min topk (len hits)))
  = Ok ((λ h, document_text (_source h))
          <$> take (Z.to_nat (Z.min topk (len hits))) hits).
Proof.
  unfold py_range.
  rewrite (py_collect_getitem (λ h, document_text (_source h)) hits 0)
    by (unfold len; lia).
  by rewrite drop_0.
Qed.

(** X16: [retrieve] on a dataset never raises and returns one row per
    example, in order, with the question and id of the example and, as
    context, the texts of the first [topk] hits of its question joined by
    single spaces.  The context id of row [idx] is the element [idx] of the
    flat list of ids of the bulk search. *)
Theorem elastic_retrieve_rows (dataset : list example) (topk : Z) :
  ∃ rows,
    ElasticFrame.retrieve es_search dataset topk = Ok rows
    ∧ length rows = length dataset
    ∧ ∀ idx example, dataset !! idx = Some example →
        ∃ context_id,
          flat_doc_indices es_search (ex_question <$> dataset) topk !! idx
          = Some context_id
          ∧ rows !! idx
            = Some (cqa example context_id
                      (py_join (u " ")
                         ((λ h, document_text (_source h))
                            <$> take (Z.to_nat (Z.min topk
                                        (len (es_search (ex_question example) topk))))
                                     (es_search (ex_question example) topk)))).
Proof.
  set (flat := flat_doc_indices es_search (ex_question <$> dataset) topk).
  set (row := λ item : nat * example,
         cqa (snd item) (default (PyList []) (flat !! fst item))
           (py_join (u " ")
              ((λ h, document_text (_source h))
                 <$> take (Z.to_nat (Z.min topk
                             (len (es_search (ex_question (snd item)) topk))))
                          (es_search (ex_question (snd item)) topk)))).
  assert (∀ idx, (idx < length dataset)%nat → is_Some (flat !! idx)) as Hflat.
  { intros idx Hidx. apply lookup_lt_is_Some_2. unfold flat.
    rewrite flat_doc_indices_length, length_fmap. lia. }
  exists (row <$> enumerate dataset). split_and!.
  - unfold ElasticFrame.retrieve. rewrite get_relevant_doc_bulk_eq.
    fold flat. apply py_collect_ok. intros [idx example] Hin.
    apply elem_of_enumerate in Hin.
    rewrite (py_getitem_lookup _ idx (es_search (ex_question example) topk))
      by (by rewrite !list_lookup_fmap, Hin).
    cbn [mbind result_bind]. rewrite retrieved_context_run.
    cbn [mbind result_bind].
    destruct (Hflat idx) as [cid Hcid]; [by eapply lookup_lt_Some|].
    rewrite (py_getitem_lookup _ _ _ Hcid). cbn [mbind result_bind].
    unfold row. cbn [fst snd]. by rewrite Hcid.
  - rewrite length_fmap. unfold enumerate. apply length_imap.
  - intros idx example Hidx.
    destruct (Hflat idx) as [cid Hcid]; [by eapply lookup_lt_Some|].
    exists cid. split; [done|].
    unfold enumerate. rewrite list_lookup_fmap, list_lookup_imap, Hidx.
    simpl. unfold row. cbn [fst snd]. by rewrite Hcid.
Qed.
End ElasticFrames.

Lemma retrieve_returns_first_ids_witness :
  len (meal_search (u "lunch") 2) = 2
  ∧ Elastic.retrieve meal_search (u "lunch") 2
    = Ok ([5 # 2; 5 # 4]%Q, [u "3"; u "7"]).
Proof.
  split; [by vm_compute|].
  rewrite (retrieve_returns_first_ids meal_search (u "lunch") 2) by (by vm_compute).
  by vm_compute.
Defined.

(** ** SparseRetrieval: ranking, further *)

Global Instance flip_Qle_trans : Transitive (flip Qle).
Proof. intros x y z Hxy Hyz. unfold flip in *. by eapply Qle_trans. Qed.

Lemma py_slice_to_prefix {A} (l : list A) k :
  ∃ rest, l = py_slice_to l k ++ rest.
Proof.
  unfold py_slice_to. destruct (0 <=? k); eexists; symmetry; apply take_drop.
Qed.

Section SparseRanking.
Variable str_lower : str → str.
Variable l2_norm : list Q → Q.
Variable argsort : list Q → list nat.
Hypothesis argsort_ok : argsort_spec argsort.

Abbreviation get_relevant_doc := (Sparse.get_relevant_doc str_lower l2_norm argsort).
Abbreviation get_relevant_doc_bulk :=
  (Sparse.get_relevant_doc_bulk str_lower l2_norm argsort).
Abbreviation similarities := (Sparse.similarities str_lower l2_norm).
Abbreviation accepts := (Sparse.accepts str_lower l2_norm).
Abbreviation batch_accepts := (SparseFrame.batch_accepts str_lower l2_norm).

Lemma rank_ranked xs k : Sparse.rank argsort (Nd1 xs) k = Ok (ranked argsort xs k).
Proof. by rewrite rank_row. Qed.

Lemma order_NoDup xs : NoDup (reverse (argsort xs)).
Proof.
  destruct (argsort_ok xs) as [Hperm _].
  rewrite reverse_Permutation, Hperm. apply NoDup_seq.
Qed.

Lemma order_elem xs i : i ∈ reverse (argsort xs) ↔ (i < length xs)%nat.
Proof.
  destruct (argsort_ok xs) as [Hperm _].
  rewrite elem_of_reverse, Hperm, elem_of_seq. lia.
Qed.

(** The ranked documents are different documents of the corpus, and no
    document left out scores more than one that is returned. *)
Lemma ranked_top xs k :
  NoDup (snd (ranked argsort xs k))
  ∧ (∀ i, i ∈ snd (ranked argsort xs k) → (i < length xs)%nat)
  ∧ (∀ j s, (j < length xs)%nat → j ∉ snd (ranked argsort xs k) →
            s ∈ fst (ranked argsort xs k) → (nth j xs 0 <= s)%Q).
Proof.
  unfold ranked. cbn [fst snd].
  destruct (py_slice_to_prefix (reverse (argsort xs)) k) as [rest Hsplit].
  pose proof (order_NoDup xs) as Hnd. rewrite Hsplit in Hnd.
  apply NoDup_app in Hnd as (Hnd & _ & _).
  split_and!; [done| |].
  - intros i Hi. apply order_elem. rewrite Hsplit, elem_of_app. by left.
  - intros j s Hj Hout Hs.
    assert (j ∈ rest) as Hrest.
    { apply order_elem in Hj. rewrite Hsplit, elem_of_app in Hj. tauto. }
    pose proof (descending_order argsort argsort_ok xs) as Hsorted.
    apply Sorted_StronglySorted in Hsorted; [|apply _].
    rewrite Hsplit, fmap_app in Hsorted.
    apply (StronglySorted_app_1_elem_of _ _ _ s (nth j xs 0%Q) Hsorted Hs).
    by apply (list_elem_of_fmap_2 (λ i, nth i xs 0%Q)).
Qed.

Lemma ranked_shape xs k :
  len (snd (ranked argsort xs k))
  = (if 0 <=? k then Z.min k (len xs) else Z.max 0 (len xs + k))
  ∧ fst (ranked argsort xs k) = (λ i, nth i xs 0%Q) <$> snd (ranked argsort xs k)
  ∧ Sorted (flip Qle) (fst (ranked argsort xs k)).
Proof.
  unfold ranked. cbn [fst snd]. split_and!; [|done|].
  - rewrite py_slice_to_length. unfold len.
    by rewrite length_reverse, (argsort_length argsort argsort_ok).
  - rewrite <- py_slice_to_fmap.
    by apply py_slice_to_sorted, descending_order.
Qed.

(** X17: the single search returns the top-[k] documents.  For a corpus
    that does not consist of one document and an accepted query it returns
    [min k n] indices for a [k] that is not negative, [n] being the number
    of documents, and with each index the score of that document.  The
    indices are different documents of the corpus, the scores come in
    non-increasing order, and no document that is left out scores more
    than a document that is returned. *)
Theorem rank_top_k
    (self : SparseRetrieval) (v : TfidfVectorizer) (emb : list (list Q))
    (query : str) (k : Z) :
  ready self v emb →
  length emb ≠ 1%nat →
  accepts v query = true →
  ∃ scores indices,
    get_relevant_doc self query k = Ok (scores, indices)
    ∧ len indices = (if 0 <=? k then Z.min k (len emb) else Z.max 0 (len emb + k))
    ∧ scores = (λ i, nth i (similarities v emb query) 0%Q) <$> indices
    ∧ Sorted (flip Qle) scores
    ∧ NoDup indices
    ∧ (∀ i, i ∈ indices → (i < length emb)%nat)
    ∧ (∀ i j, i ∈ indices → (j < length emb)%nat → j ∉ indices →
              (nth j (similarities v emb query) 0
               <= nth i (similarities v emb query) 0)%Q).
Proof.
  intros Hready Hdocs Hacc.
  rewrite (get_relevant_doc_ready _ _ _ _ _ _ _ _ Hready), Hacc.
  assert (length (similarities v emb query) = length emb) as Hlen
    by apply length_fmap.
  rewrite squeeze_row by congruence. rewrite rank_ranked.
  destruct (ranked_top (similarities v emb query) k) as (Hnd & Hin & Htop).
  destruct (ranked_shape (similarities v emb query) k)
    as (Hcount & Hscores & Hsorted).
  rewrite Hlen in Hin, Htop. unfold len in Hcount at 2 3. rewrite Hlen in Hcount.
  destruct (ranked argsort (similarities v emb query) k) as [scores indices].
  cbn [fst snd] in *.
  exists scores, indices. split_and!; [done..|].
  intros i j Hi Hj Hout. apply (Htop j); [done|done|].
  rewrite Hscores. by apply (list_elem_of_fmap_2 (λ i, nth i _ 0%Q)).
Qed.

(** The bulk search of a retriever that is ready. *)
Lemma batch_accepts_nonempty v queries :
  batch_accepts v queries = true → queries ≠ [].
Proof. by intros Hacc ->. Qed.

Lemma get_relevant_doc_bulk_ready self v emb queries k :
  ready self v emb →
  queries ≠ [] →
  get_relevant_doc_bulk self queries k
  = if batch_accepts v queries
    then Ok (fst <$> ((λ query, ranked argsort (similarities v emb query) k) <$> queries),
             snd <$> ((λ query, ranked argsort (similarities v emb query) k) <$> queries))
    else Raise AssertionError.
Proof.
  intros (Hv & Hfit & Hemb & Hshape) Hqueries.
  unfold Sparse.get_relevant_doc_bulk, Sparse.transform, SparseFrame.batch_accepts.
  rewrite Hv, Hfit, Hemb.
  destruct queries as [|query queries]; [done|]. cbn [mbind result_bind].
  destruct (Qeq_bool _ 0); [done|]. cbn [negb].
  rewrite matmul_T_shapes by done. cbn [mbind result_bind].
  rewrite <- list_fmap_compose.
  rewrite (py_collect_ok _ (λ row, ranked argsort row k))
    by (intros row _; apply rank_ranked).
  cbn [mbind result_bind]. by rewrite <- !list_fmap_compose.
Qed.

(** X18: the bulk search, once its assertion holds, returns one list of
    scores and one list of indices per query, in the order of the queries;
    each list of scores is in non-increasing order, has [min k n] entries
    for a [k] that is not negative, and holds the scores of the documents
    at the same rank.  This holds for a corpus of one document as well. *)
Theorem bulk_rank_rows
    (self : SparseRetrieval) (v : TfidfVectorizer) (emb : list (list Q))
    (queries : list str) (k : Z) :
  ready self v emb →
  batch_accepts v queries = true →
  ∃ doc_scores doc_indices,
    get_relevant_doc_bulk self queries k = Ok (doc_scores, doc_indices)
    ∧ length doc_scores = length queries
    ∧ length doc_indices = length queries
    ∧ ∀ i query, queries !! i = Some query →
        ∃ scores indices,
          doc_scores !! i = Some scores
          ∧ doc_indices !! i = Some indices
          ∧ Sorted (flip Qle) scores
          ∧ len scores
            = (if 0 <=? k then Z.min k (len emb) else Z.max 0 (len emb + k))
          ∧ scores = (λ j, nth j (similarities v emb query) 0%Q) <$> indices.
Proof.
  intros Hready Hacc.
  rewrite (get_relevant_doc_bulk_ready _ _ _ _ _ Hready
             (batch_accepts_nonempty _ _ Hacc)), Hacc.
  eexists _, _. split; [done|]. rewrite !length_fmap. split_and!; [done..|].
  intros i query Hi. eexists _, _.
  rewrite !list_lookup_fmap, Hi. cbn [fmap option_fmap option_map].
  split_and!; [done|done| | |done].
  - cbn [fst ranked]. rewrite <- py_slice_to_fmap.
    by apply py_slice_to_sorted, descending_order.
  - cbn [fst ranked]. rewrite <- py_slice_to_fmap, py_slice_to_length.
    unfold len.
    rewrite length_fmap, length_reverse, (argsort_length argsort argsort_ok).
    unfold Sparse.similarities. by rewrite length_fmap.
Qed.

Lemma dot_zero a b : Forall (λ x, x == 0)%Q a → (dot a b == 0)%Q.
Proof.
  intros Ha. unfold dot. apply np_sum_zero.
  revert b. induction Ha as [|x a Hx Ha IH]; intros [|y b]; simpl;
    try by constructor.
  constructor; [|apply IH]. rewrite Hx. apply Qmult_0_l.
Qed.

(** X19: the assertion of the bulk search looks at the whole batch.  A
    query without any feature in the vocabulary, which the single search
    rejects, passes in a batch that the assertion accepts, and its result
    is a list of documents that all have the score zero. *)
Theorem bulk_keeps_out_of_vocabulary_query
    (self : SparseRetrieval) (v : TfidfVectorizer) (emb : list (list Q))
    (queries : list str) (k : Z) (i : nat) (query : str) :
  ready self v emb →
  batch_accepts v queries = true →
  queries !! i = Some query →
  (∀ f, f ∈ Sparse.analyze str_lower v query → vocabulary_ v !! f = None) →
  get_relevant_doc self query k = Raise AssertionError
  ∧ ∃ doc_scores doc_indices scores,
      get_relevant_doc_bulk self queries k = Ok (doc_scores, doc_indices)
      ∧ doc_scores !! i = Some scores
      ∧ Forall (λ s, s == 0)%Q scores
      ∧ len scores
        = (if 0 <=? k then Z.min k (len emb) else Z.max 0 (len emb + k)).
Proof.
  intros Hready Hacc Hi Habs.
  pose proof (normalize_zero l2_norm _ (tf_idf_absent str_lower _ _ Habs)) as Hzero.
  split.
  - rewrite (get_relevant_doc_ready _ _ _ _ _ _ _ _ Hready).
    unfold Sparse.accepts.
    apply np_sum_zero, Qeq_bool_iff in Hzero. by rewrite Hzero.
  - rewrite (get_relevant_doc_bulk_ready _ _ _ _ _ Hready
               (batch_accepts_nonempty _ _ Hacc)), Hacc.
    eexists _, _, _. split; [done|].
    rewrite !list_lookup_fmap, Hi. cbn [fmap option_fmap option_map].
    split_and!; [done| |].
    + cbn [fst ranked]. apply Forall_fmap, Forall_forall. intros j Hj.
      unfold compose.
      destruct (nth_in_or_default j (similarities v emb query) 0%Q) as [Hin|Heq];
        [|by rewrite Heq].
      apply list_elem_of_In in Hin. unfold Sparse.similarities in *.
      apply list_elem_of_fmap in Hin as (row & -> & _). by apply dot_zero.
    + cbn [fst ranked]. rewrite <- py_slice_to_fmap, py_slice_to_length.
      unfold len.
      rewrite length_fmap, length_reverse, (argsort_length argsort argsort_ok).
      unfold Sparse.similarities. by rewrite length_fmap.
Qed.

(** *** The passages of the ranked documents *)

Abbreviation retrieve := (SparseFrame.retrieve str_lower l2_norm argsort).
Abbreviation retrieve_dataset :=
  (SparseFrame.retrieve_dataset str_lower l2_norm argsort).

Lemma py_getitem_raises {A} (l : list A) i e :
  py_getitem l i = Raise e → e = IndexError.
Proof. unfold py_getitem. destruct (l !! i); congruence. Qed.

Lemma py_collect_raises {X A} (f : X → result A) xs x e :
  x ∈ xs → f x = Raise e →
  (∀ y e', y ∈ xs → f y = Raise e' → e' = e) →
  py_collect f xs = Raise e.
Proof.
  induction xs as [|y xs IH]; intros Hx Hfx Hall; [by apply elem_of_nil in Hx|].
  simpl. destruct (f y) as [a|e'] eqn:Hfy.
  - simpl. rewrite IH; [done| |done|].
    + apply elem_of_cons in Hx as [Heq|Hx]; [congruence|done].
    + intros z e'' Hz. apply Hall. by right.
  - simpl. f_equal. apply (Hall y); [left|done].
Qed.

Lemma py_collect_total {X A} (f : X → result A) xs :
  (∀ x, x ∈ xs → ∃ a, f x = Ok a) → ∃ ys, py_collect f xs = Ok ys.
Proof.
  induction xs as [|x xs IH]; intros Hf; [by eexists|].
  destruct (Hf x) as [a Ha]; [left|].
  destruct IH as [ys Hys]; [intros y Hy; apply Hf; by right|].
  exists (a :: ys). simpl. by rewrite Ha, Hys.
Qed.

Lemma py_collect_getitem_bind {A B} (f : A → result B) (l : list A) s n :
  (s + n ≤ length l)%nat →
  py_collect (λ i, x ← py_getitem l i; f x) (seq s n)
  = py_collect f (take n (drop s l)).
Proof.
  revert s. induction n as [|n IH]; intros s Hlen; simpl; [done|].
  destruct (lookup_lt_is_Some_2 l s) as [x Hx]; [lia|].
  rewrite (py_getitem_lookup _ _ _ Hx). cbn [mbind result_bind].
  rewrite IH by lia. by rewrite (drop_S _ _ _ Hx).
Qed.

Lemma passages_run (passages : list str) (indices : list nat) :
  (∀ pid, pid ∈ indices → (pid < length passages)%nat) →
  py_collect (py_getitem passages) indices
  = Ok ((λ pid, nth pid passages []) <$> indices).
Proof.
  intros Hin. apply py_collect_ok. intros pid Hpid.
  destruct (lookup_lt_is_Some_2 passages pid) as [t Ht]; [by apply Hin|].
  rewrite (py_getitem_lookup _ _ _ Ht). f_equal.
  symmetry. by apply nth_lookup_Some.
Qed.

Lemma passages_at (passages : list str) (indices : list nat) :
  (∀ pid, pid ∈ indices → (pid < length passages)%nat) →
  Forall2 (λ pid text, passages !! pid = Some text) indices
    ((λ pid, nth pid passages []) <$> indices).
Proof.
  intros Hin. apply Forall2_fmap_r, Forall_Forall2_diag, Forall_forall.
  intros pid Hpid.
  destruct (lookup_lt_is_Some_2 passages pid) as [t Ht]; [by apply Hin|].
  cbv beta. rewrite Ht. f_equal. symmetry. by apply nth_lookup_Some.
Qed.

Lemma similarities_length v emb query :
  length (similarities v emb query) = length emb.
Proof. apply length_fmap. Qed.

Lemma ranked_lengths xs k :
  len (fst (ranked argsort xs k))
  = (if 0 <=? k then Z.min k (len xs) else Z.max 0 (len xs + k))
  ∧ length (snd (ranked argsort xs k)) = length (fst (ranked argsort xs k)).
Proof.
  unfold ranked. cbn [fst snd]. rewrite length_fmap. split; [|done].
  unfold len at 1. rewrite length_fmap. fold (len (py_slice_to (reverse (argsort xs)) k)).
  rewrite py_slice_to_length. unfold len.
  by rewrite length_reverse, (argsort_length argsort argsort_ok).
Qed.

(** The single search of a retriever that is ready, for a corpus that does
    not consist of one document and an accepted query. *)
Lemma get_relevant_doc_ranked self v emb query k :
  ready self v emb → length emb ≠ 1%nat → accepts v query = true →
  get_relevant_doc self query k = Ok (ranked argsort (similarities v emb query) k).
Proof.
  intros Hready Hdocs Hacc.
  rewrite (get_relevant_doc_ready _ _ _ _ _ _ _ _ Hready), Hacc.
  rewrite squeeze_row by (by rewrite similarities_length).
  apply rank_ranked.
Qed.

(** X20: [retrieve] on a query string.  For a count [topk] between zero and
    the number of documents, and a list of contexts that covers the rows of
    the document matrix, it returns the scores of the single search and
    [topk] passages: the contexts at the indices of the single search, in
    the order of the ranks. *)
Theorem sparse_retrieve_passages
    (self : SparseRetrieval) (v : TfidfVectorizer) (emb : list (list Q))
    (query : str) (topk : Z) :
  ready self v emb →
  length emb ≠ 1%nat →
  accepts v query = true →
  (length emb ≤ length (contexts self))%nat →
  0 ≤ topk ≤ len emb →
  ∃ scores indices texts,
    get_relevant_doc self query topk = Ok (scores, indices)
    ∧ retrieve self query topk = Ok (scores, texts)
    ∧ len texts = topk
    ∧ Forall2 (λ pid text, contexts self !! pid = Some text) indices texts.
Proof.
  intros Hready Hdocs Hacc Hctx Hk.
  pose proof (get_relevant_doc_ranked _ _ _ _ topk Hready Hdocs Hacc) as Hrank.
  destruct Hready as (_ & _ & Hemb & _).
  destruct (ranked_top (similarities v emb query) topk) as (_ & Hin & _).
  destruct (ranked_lengths (similarities v emb query) topk) as [Hscores Hindices].
  rewrite similarities_length in Hin.
  destruct (ranked argsort (similarities v emb query) topk) as [scores indices].
  cbn [fst snd] in *.
  assert (length scores = Z.to_nat topk) as Hlen.
  { unfold len in *. rewrite similarities_length in Hscores.
    destruct (Z.leb_spec 0 topk); lia. }
  assert (∀ pid, pid ∈ indices → (pid < length (contexts self))%nat) as Hpid.
  { intros pid Hp. specialize (Hin pid Hp). lia. }
  exists scores, indices, ((λ pid, nth pid (contexts self) []) <$> indices).
  split_and!; [done| | |by apply passages_at].
  - unfold SparseFrame.retrieve. rewrite Hemb, Hrank.
    cbn [mbind result_bind fst snd].
    destruct (py_collect_total
                (λ i, s ← py_getitem scores i;
                      pid ← py_getitem indices i;
                      text ← py_getitem (contexts self) pid;
                      Ok (s, text))
                (py_range topk)) as [printed ->].
    { intros i Hi. unfold py_range in Hi. apply elem_of_seq in Hi.
      destruct (lookup_lt_is_Some_2 scores i) as [s Hs]; [lia|].
      destruct (lookup_lt_is_Some_2 indices i) as [pid Hi']; [lia|].
      destruct (lookup_lt_is_Some_2 (contexts self) pid) as [t Ht].
      { apply Hpid. by eapply list_elem_of_lookup_2. }
      rewrite (py_getitem_lookup _ _ _ Hs), (py_getitem_lookup _ _ _ Hi').
      cbn [mbind result_bind]. rewrite (py_getitem_lookup _ _ _ Ht).
      by eexists. }
    cbn [mbind result_bind]. unfold py_range.
    rewrite (py_collect_getitem_bind (py_getitem (contexts self)) indices 0)
      by lia.
    rewrite drop_0, take_ge by lia.
    by rewrite passages_run.
  - unfold len. rewrite length_fmap. lia.
Qed.

(** X21: [retrieve] on a query string raises [IndexError] when [topk]
    exceeds the number of documents: the search returns one score per
    document, and the loop over [range(topk)] reads past the last one. *)
Theorem sparse_retrieve_beyond_corpus
    (self : SparseRetrieval) (v : TfidfVectorizer) (emb : list (list Q))
    (query : str) (topk : Z) :
  ready self v emb →
  length emb ≠ 1%nat →
  accepts v query = true →
  len emb < topk →
  retrieve self query topk = Raise IndexError.
Proof.
  intros Hready Hdocs Hacc Hk.
  pose proof (get_relevant_doc_ranked _ _ _ _ topk Hready Hdocs Hacc) as Hrank.
  destruct Hready as (_ & _ & Hemb & _).
  destruct (ranked_lengths (similarities v emb query) topk) as [Hscores _].
  destruct (ranked argsort (similarities v emb query) topk) as [scores indices].
  cbn [fst snd] in *.
  assert (length scores = length emb) as Hlen.
  { unfold len in *. rewrite similarities_length in Hscores.
    destruct (Z.leb_spec 0 topk); lia. }
  unfold SparseFrame.retrieve. rewrite Hemb, Hrank.
  cbn [mbind result_bind fst snd].
  rewrite (py_collect_raises
             (λ i, s ← py_getitem scores i;
                   pid ← py_getitem indices i;
                   text ← py_getitem (contexts self) pid;
                   Ok (s, text))
             _ (length emb) IndexError); [done| | |].
  - unfold py_range. apply elem_of_seq. unfold len in Hk. lia.
  - rewrite (py_getitem_out scores); [done|lia].
  - intros i e _ Hi.
    destruct (py_getitem scores i) as [s|e1] eqn:H1; simpl in Hi;
      [|apply py_getitem_raises in H1; congruence].
    destruct (py_getitem indices i) as [pid|e2] eqn:H2; simpl in Hi;
      [|apply py_getitem_raises in H2; congruence].
    destruct (py_getitem (contexts self) pid) as [t|e3] eqn:H3; simpl in Hi;
      [|apply py_getitem_raises in H3; congruence].
    congruence.
Qed.

(** X22: [retrieve] on a dataset, once the assertion of the bulk search
    holds and the contexts cover the rows of the document matrix, returns
    one row per example, in order: the question and the id of the example,
    the indices that the bulk search ranked for its question and, as
    context, the passages at these indices joined by single spaces.  This
    holds for every [topk] and for a corpus of one document as well. *)
Theorem sparse_retrieve_dataset_rows
    (self : SparseRetrieval) (v : TfidfVectorizer) (emb : list (list Q))
    (dataset : list example) (topk : Z) :
  ready self v emb →
  batch_accepts v (ex_question <$> dataset) = true →
  (length emb ≤ length (contexts self))%nat →
  ∃ doc_scores doc_indices rows,
    get_relevant_doc_bulk self (ex_question <$> dataset) topk
    = Ok (doc_scores, doc_indices)
    ∧ retrieve_dataset self dataset topk = Ok rows
    ∧ length rows = length dataset
    ∧ ∀ idx example, dataset !! idx = Some example →
        ∃ indices passages,
          doc_indices !! idx = Some indices
          ∧ Forall2 (λ pid text, contexts self !! pid = Some text) indices passages
          ∧ rows !! idx
            = Some (cqa example indices (py_join (u " ") passages)).
Proof.
  intros Hready Hacc Hctx.
  pose proof (get_relevant_doc_bulk_ready _ _ _ (ex_question <$> dataset) topk
                Hready (batch_accepts_nonempty _ _ Hacc)) as Hbulk.
  rewrite Hacc in Hbulk.
  destruct Hready as (_ & _ & Hemb & _).
  set (indices_of := λ example : example,
         snd (ranked argsort (similarities v emb (ex_question example)) topk)).
  set (passages_of := λ example : example,
         (λ pid, nth pid (contexts self) []) <$> indices_of example).
  set (row := λ item : nat * example,
         cqa (snd item) (indices_of (snd item))
           (py_join (u " ") (passages_of (snd item)))).
  assert (∀ example pid, pid ∈ indices_of example →
            (pid < length (contexts self))%nat) as Hpid.
  { intros example pid Hp.
    destruct (ranked_top (similarities v emb (ex_question example)) topk)
      as (_ & Hin & _).
    specialize (Hin pid Hp). rewrite similarities_length in Hin. lia. }
  assert (∀ idx example, dataset !! idx = Some example →
            (snd <$> ((λ query, ranked argsort (similarities v emb query) topk)
                        <$> (ex_question <$> dataset))) !! idx
            = Some (indices_of example)) as Hlookup.
  { intros idx example Hidx. by rewrite !list_lookup_fmap, Hidx. }
  eexists _, _, (row <$> enumerate dataset).
  split_and!; [exact Hbulk| | |].
  - unfold SparseFrame.retrieve_dataset. rewrite Hemb, Hbulk.
    cbn [mbind result_bind snd].
    apply py_collect_ok. intros [idx example] Hin.
    apply elem_of_enumerate in Hin.
    rewrite (py_getitem_lookup _ _ _ (Hlookup idx example Hin)).
    cbn [mbind result_bind].
    rewrite passages_run by apply Hpid.
    done.
  - rewrite length_fmap. unfold enumerate. apply length_imap.
  - intros idx example Hidx.
    exists (indices_of example), (passages_of example).
    split_and!; [by apply Hlookup|by apply passages_at, Hpid|].
    unfold enumerate. by rewrite list_lookup_fmap, list_lookup_imap, Hidx.
Qed.

(** X24: the retriever as the constructor leaves it.  Its contexts are the
    texts of the collection without repetition, its ids number them, and
    nothing can be searched yet: [retrieve] fails its assertion on the
    missing embedding, and the search itself finds a vectoriser that has not
    been fitted. *)
Theorem fresh_retriever
    (tokenize_fn : str → list str) (path : str) (w : wiki)
    (query : str) (dataset : list example) (topk : Z) :
  let self := Sparse.init tokenize_fn path w in
  NoDup (contexts self)
  ∧ (∀ text, text ∈ contexts self ↔ text ∈ snd <$> w)
  ∧ ids self = seq 0 (length (contexts self))
  ∧ retrieve self query topk = Raise AssertionError
  ∧ retrieve_dataset self dataset topk = Raise AssertionError
  ∧ get_relevant_doc self query topk = Raise NotFittedError
  ∧ get_relevant_doc_bulk self (ex_question <$> dataset) topk
    = Raise NotFittedError.
Proof.
  intros self. unfold self, Sparse.init. cbn [contexts ids].
  rewrite dict_fromkeys_nub. split_and!; try done.
  - apply NoDup_nub.
  - intros text. apply elem_of_nub.
Qed.
End SparseRanking.

(** ** SparseRetrieval: the persisted embedding, further *)

Section EmbeddingCache.
Variable fit_transform :
  TfidfVectorizer → list str → result (TfidfVectorizer * list (list Q)).
Variable unwritable : str → bool.

Abbreviation get_sparse_embedding :=
  (Sparse.get_sparse_embedding fit_transform unwritable).

(** X23: the persisted embedding is looked up by path alone.  After a call
    of [get_sparse_embedding] that returned, a second call changes neither
    the retriever nor the files, and a retriever over any collection that
    has the same [data_path] is given the embedding and the vectoriser of
    the first one, whatever its own contexts are; its vectoriser is not
    fitted. *)
Theorem get_sparse_embedding_keyed_by_path
    (self self' : SparseRetrieval) (fs fs' : file_system) :
  get_sparse_embedding self fs = (self', fs', Ok ()) →
  contexts self' = contexts self
  ∧ get_sparse_embedding self' fs' = (self', fs', Ok ())
  ∧ ∀ other, data_path other = data_path self →
      get_sparse_embedding other fs'
      = (Sparse.with_embedding other (p_embedding self') (tfidfv self'), fs', Ok ()).
Proof.
  intros Hrun.
  assert (data_path self' = data_path self
          ∧ contexts self' = contexts self
          ∧ fs' !! Sparse.emd_path self = Some (p_embedding self')
          ∧ fs' !! Sparse.tfidfv_path self = Some (tfidfv self'))
    as (Hpath & Hctx & Hemb & Hvec).
  { destruct (fs !! Sparse.emd_path self) as [emb|] eqn:He;
      [destruct (fs !! Sparse.tfidfv_path self) as [vec|] eqn:Hv|].
    - unfold Sparse.get_sparse_embedding in Hrun. rewrite He, Hv in Hrun.
      injection Hrun as <- <-. done.
    - destruct (tfidfv self) as [| |v] eqn:Hvec;
        [unfold Sparse.get_sparse_embedding in Hrun;
         by rewrite He, Hv, Hvec in Hrun..|].
      rewrite (get_sparse_embedding_rebuild _ _ _ _ v Hvec) in Hrun by (by right).
      destruct (fit_transform v (contexts self)) as [[v' emb']|e]; [|done].
      cbv zeta in Hrun.
      destruct (unwritable (Sparse.emd_path self)); [done|].
      destruct (unwritable (Sparse.tfidfv_path self)); [done|].
      injection Hrun as <- <-. split_and!; [done|done| |].
      + rewrite lookup_insert_ne by (symmetry; apply artifact_paths_differ).
        apply lookup_insert_eq.
      + apply lookup_insert_eq.
    - destruct (tfidfv self) as [| |v] eqn:Hvec;
        [unfold Sparse.get_sparse_embedding in Hrun;
         by rewrite He, Hvec in Hrun..|].
      rewrite (get_sparse_embedding_rebuild _ _ _ _ v Hvec) in Hrun by (by left).
      destruct (fit_transform v (contexts self)) as [[v' emb']|e]; [|done].
      cbv zeta in Hrun.
      destruct (unwritable (Sparse.emd_path self)); [done|].
      destruct (unwritable (Sparse.tfidfv_path self)); [done|].
      injection Hrun as <- <-. split_and!; [done|done| |].
      + rewrite lookup_insert_ne by (symmetry; apply artifact_paths_differ).
        apply lookup_insert_eq.
      + apply lookup_insert_eq. }
  assert (∀ other, data_path other = data_path self →
            get_sparse_embedding other fs'
            = (Sparse.with_embedding other (p_embedding self') (tfidfv self'),
               fs', Ok ())) as Hother.
  { intros other Hsame. unfold Sparse.get_sparse_embedding.
    unfold Sparse.emd_path, Sparse.tfidfv_path in *.
    by rewrite Hsame, Hemb, Hvec. }
  split_and!; [done| |done].
  rewrite (Hother self' Hpath). by destruct self'.
Qed.
End EmbeddingCache.

(** ** Instances on the small corpus, further *)

Lemma unknown_durian f :
  f ∈ Sparse.analyze ascii_lower (fst (fitted_model fruit_wiki)) (u "durian") →
  vocabulary_ (fst (fitted_model fruit_wiki)) !! f = None.
Proof.
  intros Hf. vm_compute in Hf.
  apply list_elem_of_singleton in Hf as ->. by vm_compute.
Qed.

Lemma rank_top_k_witness :
  ∃ scores indices,
    Sparse.get_relevant_doc ascii_lower l2_fixed merge_argsort fruit (u "apple") 2
    = Ok (scores, indices)
    ∧ len indices = 2
    ∧ scores
      = (λ i, nth i (Sparse.similarities ascii_lower l2_fixed
                       (fst (fitted_model fruit_wiki))
                       (snd (fitted_model fruit_wiki)) (u "apple")) 0%Q)
        <$> indices
    ∧ Sorted (flip Qle) scores
    ∧ NoDup indices
    ∧ (∀ i, i ∈ indices → (i < length (snd (fitted_model fruit_wiki)))%nat)
    ∧ (∀ i j, i ∈ indices → (j < length (snd (fitted_model fruit_wiki)))%nat →
              j ∉ indices →
              (nth j (Sparse.similarities ascii_lower l2_fixed
                        (fst (fitted_model fruit_wiki))
                        (snd (fitted_model fruit_wiki)) (u "apple")) 0
               <= nth i (Sparse.similarities ascii_lower l2_fixed
                           (fst (fitted_model fruit_wiki))
                           (snd (fitted_model fruit_wiki)) (u "apple")) 0)%Q).
Proof.
  apply (rank_top_k ascii_lower l2_fixed merge_argsort merge_argsort_spec
           fruit _ _ (u "apple") 2 fruit_ready);
    by vm_compute.
Defined.

Lemma bulk_rank_rows_witness :
  ∃ doc_scores doc_indices,
    Sparse.get_relevant_doc_bulk ascii_lower l2_fixed merge_argsort fruit
      [u "apple"; u "durian"] 2
    = Ok (doc_scores, doc_indices)
    ∧ length doc_scores = 2%nat
    ∧ length doc_indices = 2%nat.
Proof.
  destruct (bulk_rank_rows ascii_lower l2_fixed merge_argsort merge_argsort_spec
              fruit _ _ [u "apple"; u "durian"] 2 fruit_ready)
    as (doc_scores & doc_indices & Hrun & Hscores & Hindices & _);
    [by vm_compute|].
  exists doc_scores, doc_indices.
  split_and!; [exact Hrun | exact Hscores | exact Hindices].
Defined.

Lemma bulk_keeps_out_of_vocabulary_query_witness :
  Sparse.get_relevant_doc ascii_lower l2_fixed merge_argsort fruit (u "durian") 2
  = Raise AssertionError
  ∧ ∃ doc_scores doc_indices scores,
      Sparse.get_relevant_doc_bulk ascii_lower l2_fixed merge_argsort fruit
        [u "apple"; u "durian"] 2
      = Ok (doc_scores, doc_indices)
      ∧ doc_scores !! 1%nat = Some scores
      ∧ Forall (λ s, s == 0)%Q scores
      ∧ len scores = 2.
Proof.
  apply (bulk_keeps_out_of_vocabulary_query ascii_lower l2_fixed merge_argsort
           merge_argsort_spec fruit _ _ [u "apple"; u "durian"] 2 1 (u "durian")
           fruit_ready);
    [by vm_compute | done | exact unknown_durian].
Defined.

Lemma sparse_retrieve_passages_witness :
  ∃ scores indices texts,
    Sparse.get_relevant_doc ascii_lower l2_fixed merge_argsort fruit (u "apple") 2
    = Ok (scores, indices)
    ∧ SparseFrame.retrieve ascii_lower l2_fixed merge_argsort fruit (u "apple") 2
      = Ok (scores, texts)
    ∧ len texts = 2
    ∧ Forall2 (λ pid text, contexts fruit !! pid = Some text) indices texts.
Proof.
  apply (sparse_retrieve_passages ascii_lower l2_fixed merge_argsort
           merge_argsort_spec fruit _ _ (u "apple") 2 fruit_ready);
    by vm_compute.
Defined.

Lemma sparse_retrieve_beyond_corpus_witness :
  SparseFrame.retrieve ascii_lower l2_fixed merge_argsort fruit (u "apple") 4
  = Raise IndexError.
Proof.
  apply (sparse_retrieve_beyond_corpus ascii_lower l2_fixed merge_argsort
           merge_argsort_spec fruit _ _ (u "apple") 4 fruit_ready);
    by vm_compute.
Defined.

Lemma sparse_retrieve_dataset_rows_witness :
  ∃ doc_scores doc_indices rows,
    Sparse.get_relevant_doc_bulk ascii_lower l2_fixed merge_argsort fruit
      (ex_question <$> fruit_questions) 2
    = Ok (doc_scores, doc_indices)
    ∧ SparseFrame.retrieve_dataset ascii_lower l2_fixed merge_argsort fruit
        fruit_questions 2
      = Ok rows
    ∧ length rows = 2%nat.
Proof.
  destruct (sparse_retrieve_dataset_rows ascii_lower l2_fixed merge_argsort
              merge_argsort_spec fruit _ _ fruit_questions 2 fruit_ready)
    as (doc_scores & doc_indices & rows & Hbulk & Hrows & Hlen & _);
    [by vm_compute | by vm_compute |].
  exists doc_scores, doc_indices, rows.
  split_and!; [exact Hbulk | exact Hrows | exact Hlen].
Defined.

Lemma get_sparse_embedding_keyed_by_path_witness :
  Sparse.get_sparse_embedding toy_fit_transform all_writable fruit fruit_files
  = (fruit, fruit_files, Ok ())
  ∧ Sparse.get_sparse_embedding toy_fit_transform all_writable
      (Sparse.init split_words (u "data") solo_wiki) fruit_files
    = (Sparse.with_embedding (Sparse.init split_words (u "data") solo_wiki)
         (p_embedding fruit) (tfidfv fruit),
       fruit_files, Ok ()).
Proof.
  destruct (get_sparse_embedding_keyed_by_path toy_fit_transform all_writable
              (Sparse.init split_words (u "data") fruit_wiki) fruit ∅ fruit_files)
    as (_ & Hagain & Hother).
  { rewrite (get_sparse_embedding_rebuild _ _
               (Sparse.init split_words (u "data") fruit_wiki) _
               fresh_vectorizer eq_refl)
      by (left; apply lookup_empty).
    by rewrite toy_fit_transform_fruit. }
  split; [exact Hagain|].
  exact (Hother (Sparse.init split_words (u "data") solo_wiki) eq_refl).
Defined.
